(** * JRpeg compressor: a shallow embedding of [compress.py]

    The forward pipeline of the compressor is embedded stage by stage:
    [rgb_to_ycbcr], [down_sample_cbcr], [dct_and_quantise_img] and
    [encode_and_save_quantised_dct_img], composed by [compress].

    - The decoded image and the planes the first two stages hand over are
      lists of rows; such an array has rows, or is the array of the shape
      (0, 0). A slice or a view in blocks can leave an array without rows
      that still has columns (a plane of 4 by 20 is cropped to the shape
      (0, 16) and viewed as a grid of the shape (0, 2, 8, 8)): the cropped
      plane and the grid of blocks are an [ndarray], which keeps the number
      of columns next to the rows. A block is a list of 8 rows.
    - The [uint8] samples of the decoded image are integers ([Z]); the
      colour conversion runs in double precision, modelled by the kernel's
      binary64 floats.
    - The single-precision planes and blocks are kept generic in their
      element type through the class [NpFloat].
    - A raised Python exception is [None].
    - [cv2.boxFilter], [cv2.dct] and the reference matrices of the module
      [JRpeg_util] are section variables; [view_as_blocks], [groupby] and
      the slices of numpy are written out. An instance in double precision
      and stand-ins for the variables allow to run the model. *)

From Stdlib Require Import ZArith Floats Uint63.
From stdpp Require Import base numbers option list.

Set Warnings "-inexact-float".
Local Open Scope Z_scope.

(** ** Arrays *)

(** [a.shape[:2]] of an image or of a plane held as a list of rows: the
    number of rows and the length of the first one. The list without rows
    stands for the array of the shape (0, 0). *)
Definition shape {A} (a : list (list A)) : nat * nat :=
  (length a, length (default [] (head a))).

(** An array that keeps its number of columns next to its rows, as numpy
    keeps the shape of an array: without rows it still has a width. *)
Record ndarray (A : Type) := NdArray { nd_width : nat; nd_rows :> list (list A) }.
Arguments NdArray {A} nd_width nd_rows.
Arguments nd_width {A} _.
Arguments nd_rows {A} _.

(** [a.shape[:2]] of an [ndarray]. *)
Definition nd_shape {A} (a : ndarray A) : nat * nat :=
  (length (nd_rows a), nd_width a).

(** Every row of the array has the width of its shape. *)
Definition well_formed {A} (a : ndarray A) : Prop :=
  Forall (λ row, length row = nd_width a) (nd_rows a).

(** [a[i, j]]: an [IndexError] out of range. *)
Definition get2 {A} (a : list (list A)) (i j : nat) : option A :=
  row ← a !! i; row !! j.

(** [a[i, j] = v], in place. *)
Definition set2 {A} (a : list (list A)) (i j : nat) (v : A) : list (list A) :=
  alter (<[j := v]>) i a.

(** [a[i, j] = v] in an [ndarray]: the shape stays. *)
Definition nd_set2 {A} (a : ndarray A) (i j : nat) (v : A) : ndarray A :=
  NdArray (nd_width a) (set2 a i j v).

(** Every row of [a] has [w] entries and there are [h] rows. *)
Definition rect {A} (h w : nat) (a : list (list A)) : Prop :=
  length a = h ∧ Forall (λ row, length row = w) a.

(** Element-wise operations of numpy on arrays of one shape. *)
Definition arr_map {A B} (f : A → B) (a : list (list A)) : list (list B) :=
  fmap (M := list) (fmap (M := list) f) a.

Definition arr_map2 {A B C} (f : A → B → C)
    (a : list (list A)) (b : list (list B)) : list (list C) :=
  zip_with (zip_with f) a b.

Definition nd_map {A B} (f : A → B) (a : ndarray A) : ndarray B :=
  NdArray (nd_width a) (arr_map f a).

(** [for i in idx: s = body(i, s)], stopping at the first exception. *)
Fixpoint for_loop {S} (body : nat → S → option S) (idx : list nat) (s : S)
    : option S :=
  match idx with
  | [] => Some s
  | i :: idx' => s' ← body i s; for_loop body idx' s'
  end.

(** [for i in range(n)]. *)
Definition for_range {S} (n : nat) (body : nat → S → option S) (s : S)
    : option S :=
  for_loop body (seq 0 n) s.

(** ** Double precision *)

(** The conversion of a double to an integer type, as C does it: the
    fraction is discarded (truncation toward zero); there is no result for
    an infinity or a NaN. *)
Definition f64_to_Z (x : float) : option Z :=
  match Prim2SF x with
  | S754_zero _ => Some 0
  | S754_finite s m e =>
      let mag := match e with
                 | Z0 => Zpos m
                 | Zpos p => Z.shiftl (Zpos m) (Zpos p)
                 | Zneg p => Z.shiftr (Zpos m) (Zpos p)
                 end in
      Some (if s then - mag else mag)
  | _ => None
  end.

(** The assignment of a double into a [uint8] array: numpy casts with C's
    conversion, which keeps the low eight bits of the truncated value. *)
Definition astype_uint8 (x : float) : Z :=
  match f64_to_Z x with
  | Some z => z `mod` 256
  | None => 0
  end.

(** A [uint8] sample promoted to a double in mixed arithmetic. *)
Definition u8_to_f64 (v : Z) : float := PrimFloat.of_uint63 (Uint63.of_Z v).

(** ** ColorTransform: [rgb_to_ycbcr] *)

Record pixel := Pixel { c0 : Z; c1 : Z; c2 : Z }.

Definition image := list (list pixel).

(** [cv2.split(img)]: three fresh planes, copies of the channels. *)
Definition cv2_split (img : image)
    : list (list Z) * list (list Z) * list (list Z) :=
  (arr_map c0 img, arr_map c1 img, arr_map c2 img).

(** [img[:, :, k]]. *)
Definition channel (k : nat) (img : image) : list (list Z) :=
  match k with
  | 0%nat => arr_map c0 img
  | 1%nat => arr_map c1 img
  | _ => arr_map c2 img
  end.

(** [img[:, :, k] = plane]: the doubles of [plane] are cast to [uint8] and
    stored in channel [k] of [img]; the other channels keep their value. *)
Definition set_channel (k : nat) (img : image) (plane : list (list float))
    : image :=
  arr_map2 (λ p x,
    match k with
    | 0%nat => Pixel (astype_uint8 x) (c1 p) (c2 p)
    | 1%nat => Pixel (c0 p) (astype_uint8 x) (c2 p)
    | _ => Pixel (c0 p) (c1 p) (astype_uint8 x)
    end) img plane.

(** [k * a], a Python float times a [uint8] array. *)
Definition scale_u8 (k : float) (a : list (list Z)) : list (list float) :=
  arr_map (λ v, (k * u8_to_f64 v)%float) a.

Definition arr_add : list (list float) → list (list float) → list (list float) :=
  arr_map2 PrimFloat.add.

Definition arr_sub : list (list float) → list (list float) → list (list float) :=
  arr_map2 PrimFloat.sub.

Definition arr_add_scalar (a : list (list float)) (k : float) : list (list float) :=
  arr_map (λ x, (x + k)%float) a.

Definition rgb_to_ycbcr (img : image) : image :=
  let '(r, g, b) := cv2_split img in
  let img := set_channel 0 img
    (arr_add (arr_add (scale_u8 0.299 r) (scale_u8 0.587 g)) (scale_u8 0.114 b)) in
  let img := set_channel 1 img
    (arr_add_scalar
       (arr_add (arr_sub (scale_u8 (-0.168736) r) (scale_u8 0.331264 g))
                (scale_u8 0.5 b)) 128) in
  let img := set_channel 2 img
    (arr_add_scalar
       (arr_sub (arr_sub (scale_u8 0.5 r) (scale_u8 0.418688 g))
                (scale_u8 0.081312 b)) 128) in
  img.

(** The three conversion formulas, on the samples of one pixel already
    promoted to doubles; the operations associate as Python parses them. *)
Definition y_formula (r g b : float) : float :=
  (0.299 * r + 0.587 * g + 0.114 * b)%float.

Definition cb_formula (r g b : float) : float :=
  ((-0.168736 * r - 0.331264 * g + 0.5 * b) + 128)%float.

Definition cr_formula (r g b : float) : float :=
  ((0.5 * r - 0.418688 * g - 0.081312 * b) + 128)%float.

Definition ycbcr_pixel (p : pixel) : pixel :=
  let r := u8_to_f64 (c0 p) in
  let g := u8_to_f64 (c1 p) in
  let b := u8_to_f64 (c2 p) in
  Pixel (astype_uint8 (y_formula r g b))
        (astype_uint8 (cb_formula r g b))
        (astype_uint8 (cr_formula r g b)).

(** A double whose truncation fits a [uint8] without wrapping. *)
Definition fits_uint8 (x : float) : bool :=
  ((0 <=? x)%float && (x <? 256)%float)%bool.

Definition uint8_doubles : list float :=
  List.map (λ n, u8_to_f64 (Z.of_nat n)) (seq 0 256).

(** The three formulas checked on every triple of [uint8] samples. *)
Definition formulas_fit_uint8 (bs : list float) : bool :=
  forallb (λ r, forallb (λ g, forallb (λ b,
    (fits_uint8 (y_formula r g b) && fits_uint8 (cb_formula r g b)
     && fits_uint8 (cr_formula r g b))%bool) bs) bs) bs.

(** A grey pixel [(v, v, v)] keeps the chroma 128 and loses at most one
    level of luma. *)
Definition grey_check (v : Z) : bool :=
  let q := ycbcr_pixel (Pixel v v v) in
  ((v - 1 <=? c0 q) && (c0 q <=? v) && (c1 q =? 128) && (c2 q =? 128))%bool.

(** ** Single precision *)

(** The elements of the planes and blocks ([numpy.float32]) with the
    operations the pipeline applies to them. Rates, given as Python numbers,
    are embedded in the same type. *)
Class NpFloat (F : Type) := {
  f_of_Z : Z → F;           (* [np.float32(v)] of an integer, an integer literal *)
  f_sub : F → F → F;        (* [x - y] *)
  f_mul : F → F → F;        (* [x * y] *)
  f_div : F → F → F;        (* [x / y] *)
  f_trunc : F → F;          (* [np.trunc(x)] *)
  f_gt0 : F → bool;         (* [x > 0] *)
  py_int : F → option Z;    (* [int(x)]: raises on an infinity or a NaN *)
  f_gt0_zero : f_gt0 (f_of_Z 0) = false
}.

(** *** An instance in double precision, to run the model *)

Definition f64_of_Z (z : Z) : float :=
  if z <? 0 then (- PrimFloat.of_uint63 (Uint63.of_Z (- z)))%float
  else PrimFloat.of_uint63 (Uint63.of_Z z).

Definition f64_trunc (x : float) : float :=
  match f64_to_Z x with
  | Some z => if Z.abs z <? 2 ^ 53 then f64_of_Z z else x
  | None => x
  end.

#[export] Instance float_NpFloat : NpFloat float := {|
  f_of_Z := f64_of_Z;
  f_sub := PrimFloat.sub;
  f_mul := PrimFloat.mul;
  f_div := PrimFloat.div;
  f_trunc := f64_trunc;
  f_gt0 := λ x, (0 <? x)%float;
  py_int := f64_to_Z;
  f_gt0_zero := eq_refl
|}.

(** *** Stand-ins for the library functions, to run the model *)

(** A mean filter over a [k] x [k] window centred on the sample, the border
    reflected, in the manner of [cv2.boxFilter] on a [uint8] plane. *)
Definition reflect_index (n : nat) (i : Z) : nat :=
  let i := Z.abs i in
  let i := if Z.of_nat n <=? i then 2 * (Z.of_nat n - 1) - i else i in
  Z.to_nat (Z.max 0 (Z.min (Z.of_nat n - 1) i)).

Definition window_sum (a : list (list Z)) (k : Z) (i j : nat) : Z :=
  let '(h, w) := shape a in
  let offs := (λ d, Z.of_nat d - k `div` 2) <$> seq 0 (Z.to_nat k) in
  foldr Z.add 0
    (di ← offs; dj ← offs;
     [default 0 (get2 a (reflect_index h (Z.of_nat i + di))
                        (reflect_index w (Z.of_nat j + dj)))]).

Definition boxFilter_ref (a : list (list Z)) (k : Z) : list (list Z) :=
  imap (λ i row, imap (λ j _, (2 * window_sum a k i j + k * k) `div` (2 * k * k)) row) a.

(** The orthonormal DCT-II of an 8 x 8 block, [C * block * C^T]. *)
Definition cos16_table : list float :=
  [1; 0.9807852804032304; 0.9238795325112867; 0.8314696123025452;
   0.7071067811865476; 0.5555702330196022; 0.3826834323650898;
   0.19509032201612825; 0]%float.

(** The cosine of [k * pi / 16]. *)
Definition cos16 (k : nat) : float :=
  let c := λ k : nat, default 0%float (cos16_table !! k) in
  let k := (k mod 32)%nat in
  let k := if (16 <? k)%nat then (32 - k)%nat else k in
  if (8 <? k)%nat then (- c (16 - k)%nat)%float else c k.

Definition dct_matrix : list (list float) :=
  (λ u, (λ x,
     ((if (u =? 0)%nat then 0.35355339059327373 else 0.5) * cos16 ((2 * x + 1) * u))%float)
     <$> seq 0 8) <$> seq 0 8.

Definition dot (u v : list float) : float :=
  foldl PrimFloat.add 0%float (zip_with PrimFloat.mul u v).

(** [a * b^T]. *)
Definition mat_mul_t (a b : list (list float)) : list (list float) :=
  (λ row, (λ col, dot row col) <$> b) <$> a.

Definition dct_ref (block : list (list float)) : list (list float) :=
  mat_mul_t dct_matrix (mat_mul_t dct_matrix block).

(** The quantisation tables of the JPEG standard. *)
Definition Qlum_ref : list (list float) :=
  arr_map f64_of_Z
    [[16; 11; 10; 16; 24; 40; 51; 61]; [12; 12; 14; 19; 26; 58; 60; 55];
     [14; 13; 16; 24; 40; 57; 69; 56]; [14; 17; 22; 29; 51; 87; 80; 62];
     [18; 22; 37; 56; 68; 109; 103; 77]; [24; 35; 55; 64; 81; 104; 113; 92];
     [49; 64; 78; 87; 103; 121; 120; 101]; [72; 92; 95; 98; 112; 100; 103; 99]].

Definition Qchrom_ref : list (list float) :=
  arr_map f64_of_Z
    [[17; 18; 24; 47; 99; 99; 99; 99]; [18; 21; 26; 66; 99; 99; 99; 99];
     [24; 26; 56; 99; 99; 99; 99; 99]; [47; 66; 99; 99; 99; 99; 99; 99];
     [99; 99; 99; 99; 99; 99; 99; 99]; [99; 99; 99; 99; 99; 99; 99; 99];
     [99; 99; 99; 99; 99; 99; 99; 99]; [99; 99; 99; 99; 99; 99; 99; 99]].

(** ** Slices *)

(** [l[::k]] for a step [k >= 1]: the entries at the indices 0, k, 2k, ...;
    [skip] counts the entries to pass over before the next one is taken. *)
Fixpoint stride_from {A} (k skip : nat) (l : list A) : list A :=
  match l with
  | [] => []
  | x :: l' =>
      match skip with
      | O => x :: stride_from k (pred k) l'
      | S skip' => stride_from k skip' l'
      end
  end.

Definition every {A} (k : nat) (l : list A) : list A := stride_from k 0 l.

(** [a[::k, ::k]]. *)
Definition step_slice {A} (k : Z) (a : list (list A)) : list (list A) :=
  every (Z.to_nat k) (every (Z.to_nat k) <$> a).

(** [a[:n, :m]]. *)
Definition slice2 {A} (n m : nat) (a : list (list A)) : list (list A) :=
  take m <$> take n a.

(** The number of indices 0, k, 2k, ... below [n]. *)
Definition ceil_div (n k : nat) : nat := ((n + (k - 1)) / k)%nat.

(** ** Blocks *)

(** [skimage.util.view_as_blocks(a, block_shape=(8, 8))]: a [ValueError]
    unless both dimensions are multiples of 8; block [(i, j)] holds the rows
    [8i .. 8i+7] and the columns [8j .. 8j+7] of [a]. An array of the shape
    [(h, w)] gives a grid of the shape [(h / 8, w / 8, 8, 8)], also when
    [h / 8] is 0. *)
Definition block_at {A} (a : list (list A)) (i j : nat) : list (list A) :=
  (λ r, take 8 (drop (8 * j) (default [] (a !! (8 * i + r)%nat)))) <$> seq 0 8.

Definition view_as_blocks {A} (a : ndarray A)
    : option (ndarray (list (list A))) :=
  let '(h, w) := nd_shape a in
  if ((h mod 8 =? 0) && (w mod 8 =? 0))%nat then
    Some (NdArray (w / 8)
            ((λ i, (λ j, block_at a i j) <$> seq 0 (w / 8)) <$> seq 0 (h / 8)))
  else None.

(** The crop of [dct_and_quantise_img]: both dimensions are cut down to
    multiples of 8. The slice [a[:n, :m]] with [m] at most the width has
    [m] columns, whatever the number of rows it keeps. *)
Definition crop8 {A} (a : list (list A)) : ndarray A :=
  let '(height, width) := shape a in
  if ((0 <? height mod 8) || (0 <? width mod 8))%nat then
    NdArray (length (default [] (head a)) - width mod 8)
      (slice2 (length a - height mod 8)
         (length (default [] (head a)) - width mod 8) a)
  else NdArray width a.

(** ** Run lengths *)

(** [itertools.groupby(xs)]: the maximal runs of consecutive equal values,
    left to right; [key] and [group] are the run being collected. *)
Fixpoint groupby_from (key : Z) (group : list Z) (xs : list Z)
    : list (Z * list Z) :=
  match xs with
  | [] => [(key, group)]
  | x :: xs' =>
      if decide (x = key) then groupby_from key (group ++ [x]) xs'
      else (key, group) :: groupby_from x [x] xs'
  end.

Definition groupby (xs : list Z) : list (Z * list Z) :=
  match xs with
  | [] => []
  | x :: xs' => groupby_from x [x] xs'
  end.

(** Modelled from the spec: [JRpeg_util.zigzag_block] is not part of
    [compress.py]; the 64 positions of a block are read along the
    anti-diagonals from the top-left corner (the DC term) to the
    bottom-right one, the direction alternating from one diagonal to the
    next, as in JPEG. *)
Definition zigzag_order : list (nat * nat) :=
  d ← seq 0 15;
  let diag := (λ r, (r, d - r)%nat) <$> seq 0 (S d) in
  let diag := filter (λ rc, (rc.1 < 8 ∧ rc.2 < 8)%nat) diag in
  if Nat.even d then reverse diag else diag.

(** ** Sample inputs *)

Definition gray8 : image := replicate 8 (replicate 8 (Pixel 128 128 128)).

Definition gray16 : image := replicate 16 (replicate 16 (Pixel 128 128 128)).

Definition img3 : image := replicate 3 (replicate 3 (Pixel 200 100 50)).

Definition plane16 : list (list Z) := replicate 16 (replicate 16 7).

Definition gray_planes : list (list (list float)) :=
  replicate 3 (replicate 8 (replicate 8 128%float)).

Definition zero_block : list (list float) := replicate 8 (replicate 8 0%float).

Definition ramp_block : list (list float) :=
  (λ r, (λ c, f64_of_Z (Z.of_nat (8 * r + c))) <$> seq 0 8) <$> seq 0 8.

(** A grid of one block of zeros. *)
Definition zero_grid : ndarray (list (list float)) := NdArray 1 [[zero_block]].

Definition zero_grids : list (ndarray (list (list float))) :=
  [zero_grid; zero_grid; zero_grid].

(** The grids of an image of 8 by 40 subsampled by 2: one row of five
    blocks for the luma, no row of two blocks for each chroma plane. *)
Definition flat_grids : list (ndarray (list (list float))) :=
  [NdArray 5 [replicate 5 zero_block]; NdArray 2 []; NdArray 2 []].

Definition gray8x40 : image := replicate 8 (replicate 40 (Pixel 128 128 128)).

Definition small_plane : list (list float) := replicate 4 (replicate 20 128%float).

Definition inf_block : list (list float) := replicate 8 (replicate 8 infinity).

Section Pipeline.
Context {F : Type} `{!NpFloat F}.

(** [cv2.boxFilter(src, ddepth=-1, ksize=(k, k))] on a [uint8] plane. *)
Variable boxFilter : list (list Z) → Z → list (list Z).
(** [cv2.dct] on a block. *)
Variable dct : list (list F) → list (list F).
(** [JRpeg_util.Qlum] and [JRpeg_util.Qchrom], the reference matrices. *)
Variable Qlum Qchrom : list (list F).

(** *** ChromaSubsampler: [down_sample_cbcr] *)

(** [np.float32(plane)] of a [uint8] plane. *)
Definition np_float32 (plane : list (list Z)) : list (list F) :=
  arr_map f_of_Z plane.

Definition down_sample_cbcr (YCbCr : image) (sample_factor : Z)
    : list (list (list F)) :=
  if 1 <? sample_factor then
    let cb_box := boxFilter (channel 1 YCbCr) sample_factor in
    let cr_box := boxFilter (channel 2 YCbCr) sample_factor in
    let cb_down := step_slice sample_factor cb_box in
    let cr_down := step_slice sample_factor cr_box in
    [np_float32 (channel 0 YCbCr); np_float32 cb_down; np_float32 cr_down]
  else
    [np_float32 (channel 0 YCbCr); np_float32 (channel 1 YCbCr);
     np_float32 (channel 2 YCbCr)].

(** *** BlockTransformQuantizer: [dct_and_quantise_img] *)

(** [np.trunc(block / (Q * rate))]. *)
Definition quantise (Q : list (list F)) (rate : F) (block : list (list F))
    : list (list F) :=
  arr_map f_trunc (arr_map2 f_div block (arr_map (λ q, f_mul q rate) Q)).

(** The body of the loop over the blocks: the new value of block [(i, j)]
    of channel [ch]. *)
Definition transform_block (ch : nat) (QL_rate QC_rate : F)
    (block : list (list F)) : list (list F) :=
  let block := dct (arr_map (λ x, f_sub x (f_of_Z 128)) block) in
  if (ch =? 0)%nat then
    if f_gt0 QL_rate then quantise Qlum QL_rate block else block
  else
    if f_gt0 QC_rate then quantise Qchrom QC_rate block else block.

(** One turn of [for ch in range(3)]. *)
Definition dct_and_quantise_channel (ch : nat) (plane : list (list F))
    (QL_rate QC_rate : F) : option (ndarray (list (list F))) :=
  let plane := crop8 plane in
  blocks ← view_as_blocks plane;
  let '(block_height, block_width) := nd_shape blocks in
  for_range block_height (λ i,
    for_range block_width (λ j (blocks : ndarray (list (list F))),
      block ← get2 blocks i j;
      Some (nd_set2 blocks i j (transform_block ch QL_rate QC_rate block))))
    blocks.

Definition dct_and_quantise_img (img : list (list (list F)))
    (QL_rate QC_rate : F) : option (list (ndarray (list (list F)))) :=
  mapM (λ ch, plane ← img !! ch;
              dct_and_quantise_channel ch plane QL_rate QC_rate)
       [0; 1; 2]%nat.

(** *** Serializer: [encode_and_save_quantised_dct_img] *)

(** An element of an encoded channel: a bare integer (a coefficient that
    occurs once, or a dimension of the block grid), a list
    [[num, value]], or a rate. *)
Inductive entry :=
| Bare (value : Z)
| Pair (num : nat) (value : Z)
| Num (rate : F).

Definition zigzag_block (block : list (list F)) : option (list F) :=
  mapM (λ rc, get2 block rc.1 rc.2) zigzag_order.

(** [[[len(list(group)), key] for key, group in groupby(xs)]]. *)
Definition rle_pairs (xs : list Z) : list entry :=
  (λ kg, Pair (length kg.2) kg.1) <$> groupby xs.

(** The loop that stores the bare value in place of a pair that counts
    one occurrence; unpacking anything but a pair is a [TypeError]. *)
Definition unpack_singletons (l : list entry) : option (list entry) :=
  for_range (length l) (λ x l,
    e ← l !! x;
    match e with
    | Pair num value =>
        Some (if (num =? 1)%nat then <[x := Bare value]> l else l)
    | _ => None
    end) l.

(** One turn of [for ch in range(3)]. *)
Definition encode_channel (blocks : ndarray (list (list F)))
    : option (list entry) :=
  let '(block_height, block_width) := nd_shape blocks in
  coeffs ← for_range block_height (λ i,
    for_range block_width (λ j acc,
      block ← get2 blocks i j;
      zz ← zigzag_block block;
      Some (acc ++ zz))) [];
  ints ← mapM py_int coeffs;
  entries ← unpack_singletons (rle_pairs ints);
  Some (entries ++ [Bare (Z.of_nat block_height); Bare (Z.of_nat block_width)]).

(** The returned list; the dump of the list to the file is not modelled. *)
Definition encode_and_save_quantised_dct_img
    (img_blocks : list (ndarray (list (list F)))) (QL_rate QC_rate : F)
    : option (list (list entry)) :=
  encoded_list ← mapM (λ ch, blocks ← img_blocks !! ch; encode_channel blocks)
                      [0; 1; 2]%nat;
  Some (alter (λ e, e ++ [Num QL_rate; Num QC_rate]) 0%nat encoded_list).

(** *** [compress], from the decoded image to the encoded list *)

Definition compress (original_img : image) (cbcr_downsize_rate : Z)
    (QL_rate QC_rate : F) : option (list (list entry)) :=
  let YCbCr := rgb_to_ycbcr original_img in
  let YCbCr_downsampled := down_sample_cbcr YCbCr cbcr_downsize_rate in
  quantised_dct_img ← dct_and_quantise_img YCbCr_downsampled QL_rate QC_rate;
  encode_and_save_quantised_dct_img quantised_dct_img QL_rate QC_rate.

(** *** The decoder's view of an encoded channel *)

Definition expand_entry (e : entry) : list Z :=
  match e with
  | Bare value => [value]
  | Pair num value => replicate num value
  | Num _ => []
  end.

Definition expand (l : list entry) : list Z := l ≫= expand_entry.

(** The entries before the trailing metadata: all but the last four of
    the luma channel, all but the last two of a chroma channel. *)
Definition pre_metadata (ch : nat) (l : list entry) : list entry :=
  take (length l - (if (ch =? 0)%nat then 4 else 2)) l.

(** The coefficients of a block grid in the order of encoding: the blocks
    row by row, each in zigzag order, coerced to integers. *)
Definition flat_coefficients (blocks : list (list (list (list F))))
    : option (list Z) :=
  zz ← mapM zigzag_block (concat blocks);
  mapM py_int (concat zz).

(** *** Auxiliary notions for the statements *)

(** No two neighbours of the list are equal. *)
Fixpoint adjacent_ne {A} (l : list A) : Prop :=
  match l with
  | x :: l' => match l' with y :: _ => x ≠ y | [] => True end ∧ adjacent_ne l'
  | [] => True
  end.

(** A run: a non-empty group of copies of its key. *)
Definition is_run (kg : Z * list Z) : Prop :=
  kg.2 ≠ [] ∧ kg.2 = replicate (length kg.2) kg.1.

(** The entry stored for a run, once the loop over the pairs has replaced
    the pairs that count one occurrence. *)
Definition unpack_entry (e : entry) : entry :=
  match e with
  | Pair num value => if (num =? 1)%nat then Bare value else e
  | _ => e
  end.

Definition rle (xs : list Z) : list entry := unpack_entry <$> rle_pairs xs.

(** The value an entry stands for. *)
Definition entry_value (e : entry) : option Z :=
  match e with
  | Bare value => Some value
  | Pair _ value => Some value
  | Num _ => None
  end.

(** The blocks a grid must hold for the encoder to run to its end: 8 by 8,
    of coefficients that [int] accepts. *)
Definition block_ok (block : list (list F)) : Prop :=
  rect 8 8 block ∧ Forall (Forall (λ x, is_Some (py_int x))) block.

Definition grid_ok (blocks : ndarray (list (list F))) : Prop :=
  well_formed blocks ∧ Forall (Forall block_ok) blocks.

Definition zz_of (block : list (list F)) : list F :=
  default [] (zigzag_block block).

Definition int_of (x : F) : Z := default 0 (py_int x).

(** The integers a grid is encoded from. *)
Definition coefficients (blocks : list (list (list (list F)))) : list Z :=
  int_of <$> concat (zz_of <$> concat blocks).

(** The entries that close channel [ch]: the dimensions of its grid and,
    for channel 0, the two rates. *)
Definition metadata (ch : nat) (blocks : ndarray (list (list F)))
    (QL_rate QC_rate : F) : list entry :=
  [Bare (Z.of_nat (nd_shape blocks).1); Bare (Z.of_nat (nd_shape blocks).2)]
  ++ (if ch is 0%nat then [Num QL_rate; Num QC_rate] else []).

(** ** Lemmas on arrays *)

Lemma arr_map_compose {A B C} (f : A → B) (g : B → C) (a : list (list A)) :
  arr_map g (arr_map f a) = arr_map (g ∘ f) a.
Proof.
  unfold arr_map. rewrite <- list_fmap_compose.
  apply list_fmap_ext. intros _ row _. simpl. by rewrite <- list_fmap_compose.
Qed.

Lemma arr_map_ext {A B} (f g : A → B) (a : list (list A)) :
  (∀ x, f x = g x) → arr_map f a = arr_map g a.
Proof.
  intros Hfg. unfold arr_map. apply list_fmap_ext. intros _ row _.
  apply list_fmap_ext. auto.
Qed.

Lemma arr_map2_diag {A B C D} (f : B → C → D) (g : A → B) (h : A → C)
    (a : list (list A)) :
  arr_map2 f (arr_map g a) (arr_map h a) = arr_map (λ x, f (g x) (h x)) a.
Proof.
  unfold arr_map2, arr_map.
  rewrite zip_with_fmap_l, zip_with_fmap_r, zip_with_diag.
  apply list_fmap_ext. intros _ row _.
  by rewrite zip_with_fmap_l, zip_with_fmap_r, zip_with_diag.
Qed.

Lemma arr_map2_diag_l {A C D} (f : A → C → D) (h : A → C) (a : list (list A)) :
  arr_map2 f a (arr_map h a) = arr_map (λ x, f x (h x)) a.
Proof.
  unfold arr_map2, arr_map.
  rewrite zip_with_fmap_r, zip_with_diag.
  apply list_fmap_ext. intros _ row _.
  by rewrite zip_with_fmap_r, zip_with_diag.
Qed.

Lemma arr_map_get2 {A B} (f : A → B) (a : list (list A)) i j :
  get2 (arr_map f a) i j = f <$> get2 a i j.
Proof.
  unfold get2, arr_map. rewrite list_lookup_fmap.
  destruct (a !! i) as [row|]; simpl; [|done]. by rewrite list_lookup_fmap.
Qed.

Lemma arr_map_shape {A B} (f : A → B) (a : list (list A)) :
  shape (arr_map f a) = shape a.
Proof.
  unfold shape, arr_map. rewrite length_fmap. f_equal.
  destruct a as [|row a]; simpl; [done|]. by rewrite length_fmap.
Qed.

Lemma arr_map_rect {A B} (f : A → B) h w (a : list (list A)) :
  rect h w a → rect h w (arr_map f a).
Proof.
  intros [Hh Hw]. split; unfold arr_map.
  - by rewrite length_fmap.
  - apply Forall_fmap. eapply Forall_impl; [exact Hw|].
    intros row Hrow. simpl. by rewrite length_fmap.
Qed.

(** ** ColorTransform *)

(** The three in-place assignments of [rgb_to_ycbcr] amount to one pass
    that converts every pixel from its own original samples: the planes
    [r], [g], [b] are copies taken before the first assignment. *)
Lemma rgb_to_ycbcr_pointwise (img : image) :
  rgb_to_ycbcr img = arr_map ycbcr_pixel img.
Proof.
  unfold rgb_to_ycbcr, cv2_split, set_channel, arr_add, arr_sub,
    arr_add_scalar, scale_u8.
  repeat first
    [ rewrite arr_map2_diag | rewrite arr_map2_diag_l | rewrite arr_map_compose ].
  apply arr_map_ext. intros [r g b]. reflexivity.
Qed.

Lemma digits2_pos_bound (m : positive) : Zpos m < 2 ^ Zpos (digits2_pos m).
Proof.
  induction m as [m IH|m IH|]; simpl digits2_pos;
    rewrite ?Pos2Z.inj_succ, ?Z.pow_succ_r by lia; lia.
Qed.

Lemma shiftr_below_256 (m p : positive) :
  Zpos m < 2 ^ (Zpos p + 8) → 0 ≤ Z.shiftr (Zpos m) (Zpos p) ≤ 255.
Proof.
  intros Hm. rewrite Z.shiftr_div_pow2 by lia.
  assert (0 < 2 ^ Zpos p) by (apply Z.pow_pos_nonneg; lia).
  rewrite Z.pow_add_r in Hm by lia. change (2 ^ 8) with 256 in Hm.
  split.
  - apply Z.div_pos; lia.
  - apply Z.lt_succ_r. apply Z.div_lt_upper_bound; lia.
Qed.

(** A valid binary64 mantissa has at most 53 bits. *)
Lemma valid_mantissa_bound s m e :
  FloatAxioms.valid_binary (S754_finite s m e) = true → Zpos m < 2 ^ 53.
Proof.
  unfold SpecFloat.valid_binary, bounded, canonical_mantissa, fexp.
  intros Hv. apply andb_true_iff in Hv as [Hc _]. apply Z.eqb_eq in Hc.
  pose proof (digits2_pos_bound m) as Hd.
  assert (Zpos (digits2_pos m) ≤ 53) by (unfold FloatOps.prec in Hc; lia).
  eapply Z.lt_le_trans; [exact Hd|]. apply Z.pow_le_mono_r; lia.
Qed.

Lemma SFltb_256 m e :
  SFltb (S754_finite false m e) (S754_finite false (2 ^ 52) (-44)) = true →
  e < -44 ∨ (e = -44 ∧ Zpos m < 2 ^ 52).
Proof.
  unfold SFltb, SFcompare.
  destruct (Z.compare_spec e (-44)) as [He|He|He]; try discriminate.
  - intros Hcmp. right. split; [done|].
    destruct (Pos.compare_cont Eq m (2 ^ 52)) eqn:Hc; try discriminate.
    exact Hc.
  - by left.
Qed.

(** A double between 0 and 256 (excluded) truncates to an integer of the
    range of [uint8]. *)
Lemma fits_uint8_trunc (x : float) :
  fits_uint8 x = true → ∃ z, f64_to_Z x = Some z ∧ 0 ≤ z ≤ 255.
Proof.
  unfold fits_uint8. rewrite andb_true_iff, FloatAxioms.leb_spec, FloatAxioms.ltb_spec.
  intros [Hlo Hhi]. unfold f64_to_Z.
  pose proof (Prim2SF_valid x) as Hv.
  change (Prim2SF 0%float) with (S754_zero false) in Hlo.
  change (Prim2SF 256%float) with (S754_finite false (2 ^ 52) (-44)) in Hhi.
  destruct (Prim2SF x) as [s|s| |s m e]; try discriminate.
  - exists 0. split; [done|lia].
  - destruct s; discriminate.
  - destruct s; [discriminate|].
    apply valid_mantissa_bound in Hv. apply SFltb_256 in Hhi.
    assert (∃ p, e = Zneg p ∧ Zpos m < 2 ^ (Zpos p + 8)) as (p & -> & Hm).
    { destruct e as [|p|p]; try lia. exists p. split; [done|].
      destruct Hhi as [He|[He Hm]].
      - eapply Z.lt_le_trans; [exact Hv|]. apply Z.pow_le_mono_r; lia.
      - injection He as ->. exact Hm. }
    exists (Z.shiftr (Zpos m) (Zpos p)). split; [done|].
    by apply shiftr_below_256.
Qed.

Lemma formulas_fit_uint8_true : formulas_fit_uint8 uint8_doubles = true.
Proof. vm_compute. reflexivity. Qed.

Lemma uint8_doubles_In (v : Z) : 0 ≤ v ≤ 255 → In (u8_to_f64 v) uint8_doubles.
Proof.
  intros Hv. unfold uint8_doubles.
  apply in_map_iff. exists (Z.to_nat v). split.
  - by rewrite Z2Nat.id by lia.
  - apply in_seq. lia.
Qed.

Lemma formulas_fit_uint8_In (bs : list float) (r g b : float) :
  formulas_fit_uint8 bs = true → In r bs → In g bs → In b bs →
  fits_uint8 (y_formula r g b) = true
  ∧ fits_uint8 (cb_formula r g b) = true
  ∧ fits_uint8 (cr_formula r g b) = true.
Proof.
  unfold formulas_fit_uint8. intros H Hr Hg Hb.
  rewrite forallb_forall in H. specialize (H _ Hr).
  rewrite forallb_forall in H. specialize (H _ Hg).
  rewrite forallb_forall in H. specialize (H _ Hb).
  apply andb_true_iff in H as [H H3]. apply andb_true_iff in H as [H1 H2].
  auto.
Qed.

Lemma formulas_fit (r g b : Z) :
  0 ≤ r ≤ 255 → 0 ≤ g ≤ 255 → 0 ≤ b ≤ 255 →
  fits_uint8 (y_formula (u8_to_f64 r) (u8_to_f64 g) (u8_to_f64 b)) = true
  ∧ fits_uint8 (cb_formula (u8_to_f64 r) (u8_to_f64 g) (u8_to_f64 b)) = true
  ∧ fits_uint8 (cr_formula (u8_to_f64 r) (u8_to_f64 g) (u8_to_f64 b)) = true.
Proof.
  intros Hr Hg Hb.
  exact (formulas_fit_uint8_In uint8_doubles _ _ _ formulas_fit_uint8_true
           (uint8_doubles_In r Hr) (uint8_doubles_In g Hg) (uint8_doubles_In b Hb)).
Qed.

(** C5. [rgb_to_ycbcr] returns a grid of the dimensions of its input in
    which the pixel at every position holds the three conversion formulas
    evaluated on the original samples of the pixel at that position, each
    stored as [uint8]. *)
Theorem rgb_to_ycbcr_formulas (img : image) (i j : nat) (p : pixel) :
  get2 img i j = Some p →
  shape (rgb_to_ycbcr img) = shape img
  ∧ (∀ h w, rect h w img → rect h w (rgb_to_ycbcr img))
  ∧ get2 (rgb_to_ycbcr img) i j =
      let R := u8_to_f64 (c0 p) in
      let G := u8_to_f64 (c1 p) in
      let B := u8_to_f64 (c2 p) in
      Some (Pixel
        (astype_uint8 (0.299 * R + 0.587 * G + 0.114 * B)%float)
        (astype_uint8 ((-0.168736 * R - 0.331264 * G + 0.5 * B) + 128)%float)
        (astype_uint8 ((0.5 * R - 0.418688 * G - 0.081312 * B) + 128)%float)).
Proof.
  intros Hp. rewrite rgb_to_ycbcr_pointwise. split; [|split].
  - apply arr_map_shape.
  - intros h w. apply arr_map_rect.
  - rewrite arr_map_get2, Hp. reflexivity.
Qed.

(** C6. For a pixel of [uint8] samples, each of the three doubles computed
    by the formulas lies between 0 and 256 (excluded), so that the value
    stored is its truncation, an integer from 0 to 255: the store never
    wraps. *)
Theorem ycbcr_stored_in_range (img : image) (i j : nat) (p : pixel) :
  get2 img i j = Some p →
  0 ≤ c0 p ≤ 255 → 0 ≤ c1 p ≤ 255 → 0 ≤ c2 p ≤ 255 →
  let R := u8_to_f64 (c0 p) in
  let G := u8_to_f64 (c1 p) in
  let B := u8_to_f64 (c2 p) in
  ∃ y cb cr : Z,
    get2 (rgb_to_ycbcr img) i j = Some (Pixel y cb cr)
    ∧ f64_to_Z (y_formula R G B) = Some y ∧ 0 ≤ y ≤ 255
    ∧ f64_to_Z (cb_formula R G B) = Some cb ∧ 0 ≤ cb ≤ 255
    ∧ f64_to_Z (cr_formula R G B) = Some cr ∧ 0 ≤ cr ≤ 255.
Proof.
  intros Hp H0 H1 H2 R G B. subst R G B.
  destruct (formulas_fit _ _ _ H0 H1 H2) as (Hy & Hcb & Hcr).
  apply fits_uint8_trunc in Hy as (y & Hy & Hyr).
  apply fits_uint8_trunc in Hcb as (cb & Hcb & Hcbr).
  apply fits_uint8_trunc in Hcr as (cr & Hcr & Hcrr).
  exists y, cb, cr. repeat split; try assumption; try lia.
  rewrite rgb_to_ycbcr_pointwise, arr_map_get2, Hp.
  change (Some (ycbcr_pixel p) = Some (Pixel y cb cr)).
  unfold ycbcr_pixel, astype_uint8. cbv zeta. rewrite Hy, Hcb, Hcr.
  by rewrite !Z.mod_small by lia.
Qed.

(** ** ChromaSubsampler *)

Lemma ceil_div_succ (n k : nat) :
  (1 ≤ k)%nat → ceil_div (S n) k = S (ceil_div (n - pred k) k).
Proof.
  intros Hk. unfold ceil_div.
  replace (S n + (k - 1))%nat with (n + 1 * k)%nat by lia.
  rewrite Nat.div_add by lia.
  destruct (decide (k - 1 ≤ n)%nat) as [Hle|Hgt].
  - replace (n - pred k + (k - 1))%nat with n by lia. lia.
  - replace (n - pred k + (k - 1))%nat with (k - 1)%nat by lia.
    rewrite !Nat.div_small by lia. lia.
Qed.

Lemma stride_from_length {A} (k skip : nat) (l : list A) :
  (1 ≤ k)%nat →
  length (stride_from k skip l) = ceil_div (length l - skip) k.
Proof.
  intros Hk. revert skip. induction l as [|x l IH]; intros skip.
  - unfold ceil_div. simpl. symmetry. apply Nat.div_small. lia.
  - destruct skip as [|skip]; cbn [stride_from length]; rewrite IH.
    + by rewrite Nat.sub_0_r, ceil_div_succ.
    + done.
Qed.

Lemma stride_from_lookup {A} (k skip i : nat) (l : list A) :
  (1 ≤ k)%nat → stride_from k skip l !! i = l !! (skip + i * k)%nat.
Proof.
  intros Hk. revert skip i. induction l as [|x l IH]; intros skip i; simpl.
  - by rewrite !lookup_nil.
  - destruct skip as [|skip]; simpl.
    + destruct i as [|i]; simpl; [done|]. rewrite IH.
      replace (k + i * k)%nat with (S (pred k + i * k)) by lia. done.
    + by rewrite IH.
Qed.

Lemma stride_from_Forall {A} (P : A → Prop) (k skip : nat) (l : list A) :
  Forall P l → Forall P (stride_from k skip l).
Proof.
  intros Hl. revert skip. induction Hl as [|x l Hx Hl IH]; intros skip; simpl.
  - constructor.
  - destruct skip; [constructor|]; auto.
Qed.

Lemma step_slice_rect {A} (k : Z) (h w : nat) (a : list (list A)) :
  1 ≤ k → rect h w a →
  rect (ceil_div h (Z.to_nat k)) (ceil_div w (Z.to_nat k)) (step_slice k a).
Proof.
  intros Hk [Hh Hw]. unfold step_slice, every. split.
  - rewrite stride_from_length, length_fmap by lia. by rewrite Nat.sub_0_r, Hh.
  - apply stride_from_Forall, Forall_fmap.
    eapply Forall_impl; [exact Hw|]. intros row Hrow. simpl.
    rewrite stride_from_length by lia. by rewrite Nat.sub_0_r, Hrow.
Qed.

Lemma step_slice_get2 {A} (k : Z) (a : list (list A)) (i j : nat) :
  1 ≤ k →
  get2 (step_slice k a) i j = get2 a (i * Z.to_nat k) (j * Z.to_nat k).
Proof.
  intros Hk. unfold get2, step_slice, every.
  rewrite stride_from_lookup, list_lookup_fmap by lia. simpl.
  destruct (a !! (i * Z.to_nat k)%nat) as [row|]; simpl; [|done].
  by rewrite stride_from_lookup by lia.
Qed.

Lemma channel_rect (k h w : nat) (img : image) :
  rect h w img → rect h w (channel k img).
Proof. destruct k as [|[|k]]; apply arr_map_rect. Qed.

Lemma channel_get2 (k : nat) (img : image) (i j : nat) :
  get2 (channel k img) i j =
  (match k with 0%nat => c0 | 1%nat => c1 | _ => c2 end) <$> get2 img i j.
Proof. destruct k as [|[|k]]; apply arr_map_get2. Qed.

(** C8. With [sample_factor = 1] the three planes returned are the three
    channels of the input converted to floating point, sample for sample
    and of the shape of the input, whatever the box filter is: it is not
    applied, and no sample is left out. *)
Theorem down_sample_factor_one (YCbCr : image) :
  down_sample_cbcr YCbCr 1
    = [np_float32 (channel 0 YCbCr); np_float32 (channel 1 YCbCr);
       np_float32 (channel 2 YCbCr)]
  ∧ down_sample_cbcr YCbCr 1
    = [arr_map (λ p, f_of_Z (c0 p)) YCbCr; arr_map (λ p, f_of_Z (c1 p)) YCbCr;
       arr_map (λ p, f_of_Z (c2 p)) YCbCr]
  ∧ Forall (λ plane, shape plane = shape YCbCr) (down_sample_cbcr YCbCr 1).
Proof.
  assert (Heq : down_sample_cbcr YCbCr 1
    = [arr_map (λ p, f_of_Z (c0 p)) YCbCr; arr_map (λ p, f_of_Z (c1 p)) YCbCr;
       arr_map (λ p, f_of_Z (c2 p)) YCbCr]).
  { unfold down_sample_cbcr, np_float32, channel. simpl.
    by rewrite !arr_map_compose. }
  split; [reflexivity|]. split; [exact Heq|].
  rewrite Heq. repeat constructor; apply arr_map_shape.
Qed.

(** C4, amended. For [sample_factor > 1] and a box filter that keeps the
    shape of its input, the Cb and Cr planes hold the samples of the
    filtered planes at the rows and columns 0, [sample_factor],
    2 * [sample_factor], ...: their dimensions are [h] and [w] divided by
    [sample_factor] and rounded up; the Y plane keeps [h] x [w]. *)
Theorem down_sample_dimensions (YCbCr : image) (h w : nat) (sample_factor : Z) :
  (∀ h w a k, rect h w a → rect h w (boxFilter a k)) →
  rect h w YCbCr →
  1 < sample_factor →
  let k := Z.to_nat sample_factor in
  ∃ Y Cb Cr,
    down_sample_cbcr YCbCr sample_factor = [Y; Cb; Cr]
    ∧ rect h w Y
    ∧ rect (ceil_div h k) (ceil_div w k) Cb
    ∧ rect (ceil_div h k) (ceil_div w k) Cr
    ∧ (∀ i j, get2 Cb i j =
         f_of_Z <$> get2 (boxFilter (channel 1 YCbCr) sample_factor) (i * k) (j * k))
    ∧ (∀ i j, get2 Cr i j =
         f_of_Z <$> get2 (boxFilter (channel 2 YCbCr) sample_factor) (i * k) (j * k)).
Proof.
  intros Hbox Hrect Hsf k. unfold down_sample_cbcr.
  destruct (Z.ltb_spec 1 sample_factor) as [_|]; [|lia].
  eexists _, _, _. split; [reflexivity|]. unfold np_float32.
  split; [by apply arr_map_rect, channel_rect|].
  split; [apply arr_map_rect, step_slice_rect; [lia|]; by apply Hbox, channel_rect|].
  split; [apply arr_map_rect, step_slice_rect; [lia|]; by apply Hbox, channel_rect|].
  split; intros i j; by rewrite arr_map_get2, step_slice_get2 by lia.
Qed.

(** ** Loops that update an array in place *)

Lemma alter_insert_Some {A} (f : A → A) (l : list A) (i : nat) (x : A) :
  l !! i = Some x → alter f i l = <[i := f x]> l.
Proof.
  revert i. induction l as [|y l IH]; intros [|i] Hx; simplify_eq/=; [done|].
  f_equal. by apply IH.
Qed.

Lemma option_bind_Some {A B} (f : A → option B) (x : A) : Some x ≫= f = f x.
Proof. reflexivity. Qed.

(** The inner loop over the columns [length pre ..] of row [i] replaces
    every element it visits by its image under [f]. *)
Lemma row_loop {A} (f : A → A) (i : nat) (post pre : list A)
    (a : list (list A)) :
  a !! i = Some (pre ++ post) →
  for_loop (λ j b, x ← get2 b i j; Some (set2 b i j (f x)))
           (seq (length pre) (length post)) a
  = Some (<[i := pre ++ (f <$> post)]> a).
Proof.
  revert pre a. induction post as [|x post IH]; intros pre a Ha.
  - simpl. rewrite app_nil_r in *. by rewrite list_insert_id.
  - assert (Hget : get2 a i (length pre) = Some x).
    { unfold get2. rewrite Ha. by apply list_lookup_middle. }
    assert (Hset : set2 a i (length pre) (f x) = <[i := (pre ++ [f x]) ++ post]> a).
    { unfold set2. rewrite (alter_insert_Some _ _ _ _ Ha).
      rewrite insert_app_r_alt by lia. rewrite Nat.sub_diag. simpl.
      by rewrite <- app_assoc. }
    assert (Hi : (i < length a)%nat) by (eapply lookup_lt_Some; eauto).
    cbn [length seq for_loop]. rewrite Hget, option_bind_Some. cbv beta.
    rewrite option_bind_Some, Hset.
    specialize (IH (pre ++ [f x]) (<[i := (pre ++ [f x]) ++ post]> a)).
    rewrite length_app in IH. cbn [length] in IH. rewrite Nat.add_1_r in IH.
    rewrite IH by (by rewrite list_lookup_insert_eq).
    rewrite list_insert_insert_eq, <- app_assoc. reflexivity.
Qed.

(** The two nested loops over a grid of [w] columns replace every element
    of the rows [length pre ..] by its image under [f]. *)
Lemma grid_loop {A} (f : A → A) (w : nat) (post pre : list (list A)) :
  Forall (λ row, length row = w) post →
  for_loop (λ i, for_range w (λ j (b : list (list A)),
              x ← get2 b i j; Some (set2 b i j (f x))))
           (seq (length pre) (length post)) (pre ++ post)
  = Some (pre ++ arr_map f post).
Proof.
  revert pre. induction post as [|row post IH]; intros pre Hw.
  - reflexivity.
  - apply Forall_cons in Hw as [Hrow Hw].
    assert (Hinner : for_range w (λ j (b : list (list A)),
                        x ← get2 b (length pre) j;
                        Some (set2 b (length pre) j (f x))) (pre ++ row :: post)
                     = Some ((pre ++ [fmap (M := list) f row]) ++ post)).
    { unfold for_range. rewrite <- Hrow.
      pose proof (row_loop f (length pre) row [] (pre ++ row :: post)
                    (list_lookup_middle _ _ _ _ eq_refl)) as Hr.
      cbn [length app] in Hr. rewrite Hr.
      rewrite insert_app_r_alt by lia. rewrite Nat.sub_diag. simpl.
      by rewrite <- app_assoc. }
    cbn [length seq for_loop]. rewrite Hinner, option_bind_Some.
    specialize (IH (pre ++ [fmap (M := list) f row]) Hw).
    rewrite length_app in IH. cbn [length] in IH. rewrite Nat.add_1_r in IH.
    rewrite IH. rewrite <- app_assoc. reflexivity.
Qed.

Lemma in_place_map {A} (f : A → A) (h w : nat) (a : list (list A)) :
  rect h w a →
  for_range h (λ i, for_range w (λ j (b : list (list A)),
    x ← get2 b i j; Some (set2 b i j (f x)))) a
  = Some (arr_map f a).
Proof.
  intros [Hh Hw]. unfold for_range at 1. rewrite <- Hh.
  exact (grid_loop f w a [] Hw).
Qed.

(** A loop whose state is seen through [g] runs as the loop on the state
    itself. *)
Lemma for_loop_sim {S T} (g : S → T) (body1 : nat → S → option S)
    (body2 : nat → T → option T) (idx : list nat) (s : S) :
  (∀ i s, body2 i (g s) = g <$> body1 i s) →
  for_loop body2 idx (g s) = g <$> for_loop body1 idx s.
Proof.
  intros Hbody. revert s. induction idx as [|i idx IH]; intros s; [done|].
  cbn [for_loop]. rewrite Hbody. destruct (body1 i s) as [s'|]; [|done].
  cbn [fmap option_fmap option_map mbind option_bind]. apply IH.
Qed.

(** The two loops over an [ndarray] replace every element by its image
    under [f]; the width stays. *)
Lemma in_place_map_nd {A} (f : A → A) (a : ndarray A) :
  well_formed a →
  (let '(bh, bw) := nd_shape a in
   for_range bh (λ i, for_range bw (λ j (b : ndarray A),
     x ← get2 b i j; Some (nd_set2 b i j (f x)))) a)
  = Some (nd_map f a).
Proof.
  intros Hwf. destruct a as [w rows].
  unfold nd_shape, nd_map, well_formed in *. cbn [nd_rows nd_width] in *.
  pose proof (in_place_map f (length rows) w rows (conj eq_refl Hwf)) as Hmap.
  unfold for_range at 1 in Hmap. unfold for_range at 1.
  rewrite (for_loop_sim (NdArray w)
             (λ i, for_range w (λ j (b : list (list A)),
                x ← get2 b i j; Some (set2 b i j (f x))))).
  - by rewrite Hmap.
  - intros i s. unfold for_range. apply for_loop_sim. intros j b.
    unfold nd_set2. cbn [nd_rows nd_width]. by destruct (get2 b i j).
Qed.

(** ** Shapes, crops and blocks *)

Lemma shape_rect {A} (h w : nat) (a : list (list A)) :
  rect h w a → a ≠ [] → shape a = (h, w).
Proof.
  intros [Hh Hw] Hne. unfold shape. destruct a as [|row a]; [done|].
  apply Forall_cons in Hw as [Hrow _]. simpl in *. by rewrite Hh, Hrow.
Qed.

Lemma rect_nil_inv {A} (h w : nat) : rect h w (@nil (list A)) → h = 0%nat.
Proof. by intros [<- _]. Qed.

Lemma slice2_rect {A} (h w n m : nat) (a : list (list A)) :
  rect h w a → (n ≤ h)%nat → (m ≤ w)%nat → rect n m (slice2 n m a).
Proof.
  intros [Hh Hw] Hn Hm. unfold slice2. split.
  - rewrite length_fmap, length_take. lia.
  - apply Forall_fmap, Forall_take.
    eapply Forall_impl; [exact Hw|]. intros row Hrow. simpl in *.
    rewrite length_take. lia.
Qed.

Lemma slice2_get2 {A} (n m i j : nat) (a : list (list A)) :
  (i < n)%nat → (j < m)%nat → get2 (slice2 n m a) i j = get2 a i j.
Proof.
  intros Hi Hj. unfold get2, slice2.
  rewrite list_lookup_fmap, lookup_take_lt by done.
  destruct (a !! i) as [row|]; simpl; [|done]. by rewrite lookup_take_lt.
Qed.

Lemma slice2_full {A} (h w : nat) (a : list (list A)) :
  rect h w a → slice2 h w a = a.
Proof.
  intros [Hh Hw]. unfold slice2. rewrite take_ge by lia. clear Hh.
  induction Hw as [|row a Hrow Hw IH]; [done|].
  rewrite fmap_cons, IH. by rewrite take_ge by lia.
Qed.

Lemma crop8_slice2 {A} (h w : nat) (a : list (list A)) :
  rect h w a → nd_rows (crop8 a) = slice2 (h - h mod 8) (w - w mod 8) a.
Proof.
  intros Hrect. destruct (decide (a = [])) as [->|Hne].
  { unfold slice2. by rewrite take_nil. }
  unfold crop8. rewrite (shape_rect h w a Hrect Hne).
  destruct Hrect as [Hh Hw]. destruct a as [|row a]; [done|].
  pose proof Hw as Hw'. apply Forall_cons in Hw' as [Hrow _]. simpl head. simpl default.
  rewrite Hh, Hrow.
  destruct ((0 <? h mod 8) || (0 <? w mod 8))%nat eqn:Hc; [done|].
  apply orb_false_iff in Hc as [Hc1 Hc2].
  apply Nat.ltb_ge in Hc1, Hc2. cbn [nd_rows].
  replace (h - h mod 8)%nat with h by lia. replace (w - w mod 8)%nat with w by lia.
  symmetry. by apply slice2_full.
Qed.

(** The cropped plane keeps its width when the crop leaves no row. *)
Lemma crop8_width {A} (h w : nat) (a : list (list A)) :
  rect h w a → a ≠ [] → nd_width (crop8 a) = (w - w mod 8)%nat.
Proof.
  intros Hrect Hne. unfold crop8. rewrite (shape_rect h w a Hrect Hne).
  destruct Hrect as [Hh Hw]. destruct a as [|row a]; [done|].
  apply Forall_cons in Hw as [Hrow _]. simpl head. simpl default. rewrite Hrow.
  destruct ((0 <? h mod 8) || (0 <? w mod 8))%nat eqn:Hc; [done|].
  apply orb_false_iff in Hc as [_ Hc2]. apply Nat.ltb_ge in Hc2.
  cbn [nd_width]. lia.
Qed.

Lemma view_as_blocks_shape {A} (h w : nat) (a : ndarray A) :
  nd_shape a = (h, w) → (h mod 8 = 0)%nat → (w mod 8 = 0)%nat →
  view_as_blocks a
  = Some (NdArray (w / 8)
            ((λ i, (λ j, block_at a i j) <$> seq 0 (w / 8)) <$> seq 0 (h / 8))).
Proof.
  intros Hshape Hh Hw. unfold view_as_blocks. rewrite Hshape. by rewrite Hh, Hw.
Qed.

Lemma block_at_get2 {A} (a : list (list A)) (i j r c : nat) :
  (r < 8)%nat → (c < 8)%nat →
  get2 (block_at a i j) r c = get2 a (8 * i + r) (8 * j + c).
Proof.
  intros Hr Hc. unfold get2, block_at.
  rewrite list_lookup_fmap, lookup_seq_lt, Nat.add_0_l by done.
  cbn [fmap option_fmap option_map mbind option_bind].
  rewrite lookup_take_lt, lookup_drop by done.
  destruct (a !! (8 * i + r)%nat) as [row|];
    cbn [default mbind option_bind]; [done|].
  by rewrite lookup_nil.
Qed.

Lemma block_at_rect {A} (h w : nat) (a : list (list A)) (i j : nat) :
  rect h w a → (8 * i + 8 ≤ h)%nat → (8 * j + 8 ≤ w)%nat →
  rect 8 8 (block_at a i j).
Proof.
  intros [Hh Hw] Hi Hj. unfold block_at. split.
  - by rewrite length_fmap, length_seq.
  - apply Forall_fmap, Forall_forall. intros r Hr. unfold compose.
    apply elem_of_seq in Hr.
    destruct (lookup_lt_is_Some_2 a (8 * i + r)) as [row Hrow]; [lia|].
    rewrite Hrow. cbn [default from_option id]. rewrite length_take, length_drop.
    pose proof (Forall_lookup_1 _ _ _ _ Hw Hrow) as Hlen. simpl in Hlen. lia.
Qed.

Lemma blocks_grid_get2 {A} (a : list (list A)) (bh bw i j : nat) :
  (i < bh)%nat → (j < bw)%nat →
  get2 ((λ i, (λ j, block_at a i j) <$> seq 0 bw) <$> seq 0 bh) i j
  = Some (block_at a i j).
Proof.
  intros Hi Hj. unfold get2.
  rewrite list_lookup_fmap, lookup_seq_lt, Nat.add_0_l by done.
  cbn [fmap option_fmap option_map mbind option_bind].
  by rewrite list_lookup_fmap, lookup_seq_lt, Nat.add_0_l by done.
Qed.

Lemma blocks_grid_rect {A} (a : list (list A)) (bh bw : nat) :
  rect bh bw ((λ i, (λ j, block_at a i j) <$> seq 0 bw) <$> seq 0 bh).
Proof.
  split.
  - by rewrite length_fmap, length_seq.
  - apply Forall_fmap, Forall_forall. intros i _. unfold compose.
    by rewrite length_fmap, length_seq.
Qed.

Lemma rect_concat_length {A} (h w : nat) (a : list (list A)) :
  rect h w a → length (concat a) = (h * w)%nat.
Proof.
  intros [<- Hw]. induction Hw as [|row a Hrow Hw IH]; [done|].
  cbn [concat length]. rewrite length_app, IH, Hrow. lia.
Qed.

Lemma crop8_rect {A} (plane : list (list A)) (h w : nat) :
  rect h w plane → rect (h - h mod 8) (w - w mod 8) (crop8 plane).
Proof.
  intros Hrect. rewrite (crop8_slice2 h w) by done.
  pose proof (Nat.mod_upper_bound h 8 ltac:(lia)).
  pose proof (Nat.mod_upper_bound w 8 ltac:(lia)).
  eapply slice2_rect; [exact Hrect|lia|lia].
Qed.

Lemma sub_mod_8 (n : nat) :
  ((n - n mod 8) mod 8 = 0 ∧ 8 * ((n - n mod 8) / 8) = n - n mod 8)%nat.
Proof.
  pose proof (Nat.div_mod_eq n 8) as Hd.
  assert (Hn : (n - n mod 8 = (n / 8) * 8)%nat) by lia.
  rewrite Hn, Nat.Div0.mod_mul, Nat.div_mul by lia. lia.
Qed.

Lemma div_8_sub_mod (n : nat) : ((n - n mod 8) / 8 = n / 8)%nat.
Proof.
  destruct (sub_mod_8 n) as [_ H8]. pose proof (Nat.div_mod_eq n 8). lia.
Qed.

Lemma crop8_shape {A} (plane : list (list A)) (h w : nat) :
  rect h w plane → plane ≠ [] →
  nd_shape (crop8 plane) = ((h - h mod 8)%nat, (w - w mod 8)%nat).
Proof.
  intros Hrect Hne. unfold nd_shape.
  rewrite (crop8_width h w) by done.
  by destruct (crop8_rect plane h w Hrect) as [-> _].
Qed.

(** The blocks cut out of the cropped plane: the rows of the grid, and
    its shape, which has [(w - w % 8) / 8] columns also when it has no
    row. *)
Lemma crop8_view_as_blocks {A} (plane : list (list A)) (h w : nat) :
  rect h w plane →
  ∃ blocks : ndarray (list (list A)),
    view_as_blocks (crop8 plane) = Some blocks
    ∧ nd_rows blocks
      = ((λ i, (λ j, block_at (crop8 plane) i j)
                 <$> seq 0 ((w - w mod 8) / 8))
         <$> seq 0 ((h - h mod 8) / 8))
    ∧ well_formed blocks
    ∧ (plane ≠ [] →
         nd_shape blocks = (((h - h mod 8) / 8)%nat, ((w - w mod 8) / 8)%nat)).
Proof.
  intros Hrect. destruct (decide (plane = [])) as [->|Hne].
  - apply rect_nil_inv in Hrect as ->. eexists. split; [reflexivity|].
    split; [reflexivity|]. split; [constructor|done].
  - destruct (sub_mod_8 h) as [Hh _]. destruct (sub_mod_8 w) as [Hw _].
    eexists. split.
    { exact (view_as_blocks_shape _ _ _ (crop8_shape plane h w Hrect Hne) Hh Hw). }
    cbn [nd_rows]. split; [reflexivity|]. split.
    + unfold well_formed. cbn [nd_rows nd_width].
      apply Forall_fmap, Forall_forall. intros i _. unfold compose.
      by rewrite length_fmap, length_seq.
    + intros _. unfold nd_shape. cbn [nd_rows nd_width].
      by rewrite length_fmap, length_seq.
Qed.

(** C3. A plane of [h] rows and [w] columns is cut down to its first
    [h - h % 8] rows and [w - w % 8] columns and split in a grid of
    [(h - h % 8) / 8] by [(w - w % 8) / 8] blocks of 8 by 8, block [(i, j)]
    holding the rows [8i .. 8i+7] and the columns [8j .. 8j+7]; a plane of
    16 by 16 gives 2 by 2 blocks, 4 in all. *)
Theorem crop_and_partition {A} (plane : list (list A)) (h w : nat) :
  rect h w plane →
  let h' := (h - h mod 8)%nat in
  let w' := (w - w mod 8)%nat in
  nd_rows (crop8 plane) = slice2 h' w' plane
  ∧ rect h' w' (crop8 plane)
  ∧ ((0 < h)%nat → nd_shape (crop8 plane) = (h', w'))
  ∧ ∃ blocks,
      view_as_blocks (crop8 plane) = Some blocks
      ∧ rect (h' / 8) (w' / 8) blocks
      ∧ ((0 < h)%nat → nd_shape blocks = ((h' / 8)%nat, (w' / 8)%nat))
      ∧ (∀ i j, (i < h' / 8)%nat → (j < w' / 8)%nat →
           ∃ block, get2 blocks i j = Some block
             ∧ rect 8 8 block
             ∧ ∀ r c, (r < 8)%nat → (c < 8)%nat →
                 get2 block r c = get2 plane (8 * i + r) (8 * j + c))
      ∧ (h = 16%nat → w = 16%nat →
           rect 2 2 blocks ∧ length (concat blocks) = 4%nat).
Proof.
  intros Hrect h' w'.
  assert (Hcrop : nd_rows (crop8 plane) = slice2 h' w' plane)
    by (by apply crop8_slice2).
  pose proof (crop8_rect plane h w Hrect) as Hrect'. fold h' w' in Hrect'.
  destruct (sub_mod_8 h) as [_ Hh8]. destruct (sub_mod_8 w) as [_ Hw8].
  fold h' in Hh8. fold w' in Hw8.
  assert (Hne : (0 < h)%nat → plane ≠ []).
  { intros Hh ->. apply rect_nil_inv in Hrect. lia. }
  split; [exact Hcrop|]. split; [exact Hrect'|].
  split; [intros Hh; apply crop8_shape; auto|].
  destruct (crop8_view_as_blocks plane h w Hrect)
    as (blocks & Hview & Hrows & _ & Hshape).
  fold h' w' in Hrows, Hshape.
  exists blocks. split; [exact Hview|]. rewrite Hrows.
  split; [apply blocks_grid_rect|]. split; [intros Hh; auto|]. split.
  - intros i j Hi Hj. exists (block_at (crop8 plane) i j).
    split; [by apply blocks_grid_get2|].
    split; [apply (block_at_rect h' w'); [done|lia|lia]|].
    intros r c Hr Hc. rewrite block_at_get2 by done.
    rewrite Hcrop. apply slice2_get2; lia.
  - intros -> ->. change (h' / 8)%nat with 2%nat. change (w' / 8)%nat with 2%nat.
    split; [apply blocks_grid_rect|].
    by rewrite (rect_concat_length 2 2) by apply blocks_grid_rect.
Qed.

(** ** BlockTransformQuantizer *)

Lemma fmap_zip_with_fmap_r {A B C D E} (h : C → E) (f : A → B → C) (g : D → B)
    (l : list A) (k : list D) :
  h <$> zip_with f l (g <$> k) = zip_with (λ x y, h (f x (g y))) l k.
Proof.
  revert k. induction l as [|x l IH]; intros [|y k]; simpl; [done..|].
  f_equal. apply IH.
Qed.

(** Quantisation divides every coefficient by the entry of the reference
    matrix at its position times the rate, and truncates. *)
Lemma quantise_pointwise (Q : list (list F)) (rate : F) (block : list (list F)) :
  quantise Q rate block
  = arr_map2 (λ d q, f_trunc (f_div d (f_mul q rate))) block Q.
Proof.
  unfold quantise, arr_map, arr_map2.
  rewrite (fmap_zip_with_fmap_r (fmap f_trunc) (zip_with f_div)
             (fmap (λ q, f_mul q rate)) block Q).
  revert Q. induction block as [|row block IH]; intros [|qrow Q]; simpl; [done..|].
  f_equal; [|apply IH]. apply fmap_zip_with_fmap_r.
Qed.

Lemma nd_map_shape {A B} (f : A → B) (a : ndarray A) :
  nd_shape (nd_map f a) = nd_shape a.
Proof. unfold nd_shape, nd_map, arr_map. cbn [nd_rows nd_width]. by rewrite length_fmap. Qed.

Lemma nd_map_well_formed {A B} (f : A → B) (a : ndarray A) :
  well_formed a → well_formed (nd_map f a).
Proof.
  unfold well_formed, nd_map, arr_map. cbn [nd_rows nd_width]. intros Hwf.
  apply Forall_fmap. eapply Forall_impl; [exact Hwf|].
  intros row Hrow. unfold compose. by rewrite length_fmap.
Qed.

(** The blocks of one channel after the loops: the partition of the
    cropped plane, every block transformed. *)
Lemma dct_and_quantise_channel_blocks (ch : nat) (plane : list (list F))
    (h w : nat) (QL_rate QC_rate : F) :
  rect h w plane →
  ∃ blocks : ndarray (list (list F)),
    view_as_blocks (crop8 plane) = Some blocks
    ∧ rect ((h - h mod 8) / 8) ((w - w mod 8) / 8) blocks
    ∧ well_formed blocks
    ∧ (plane ≠ [] →
         nd_shape blocks = (((h - h mod 8) / 8)%nat, ((w - w mod 8) / 8)%nat))
    ∧ dct_and_quantise_channel ch plane QL_rate QC_rate
      = Some (nd_map (transform_block ch QL_rate QC_rate) blocks).
Proof.
  intros Hrect.
  destruct (crop8_view_as_blocks plane h w Hrect)
    as (blocks & Hview & Hrows & Hwf & Hshape).
  exists blocks. split; [exact Hview|].
  split; [rewrite Hrows; apply blocks_grid_rect|].
  split; [exact Hwf|]. split; [exact Hshape|].
  unfold dct_and_quantise_channel. rewrite Hview, option_bind_Some.
  exact (in_place_map_nd _ _ Hwf).
Qed.

Lemma transform_block_cases (ch : nat) (QL_rate QC_rate : F)
    (block : list (list F)) :
  let rate := if ch is 0%nat then QL_rate else QC_rate in
  let Q := if ch is 0%nat then Qlum else Qchrom in
  let D := dct (arr_map (λ x, f_sub x (f_of_Z 128)) block) in
  (f_gt0 rate = true →
     transform_block ch QL_rate QC_rate block
     = arr_map2 (λ d q, f_trunc (f_div d (f_mul q rate))) D Q)
  ∧ (f_gt0 rate = false → transform_block ch QL_rate QC_rate block = D).
Proof.
  unfold transform_block. destruct ch as [|ch]; simpl; split; intros ->;
    first [apply quantise_pointwise | reflexivity].
Qed.

Lemma planes_inv (img : list (list (list F))) :
  length img = 3%nat →
  Forall (λ plane, ∃ h w, rect h w plane) img →
  ∃ p0 p1 p2 h0 w0 h1 w1 h2 w2,
    img = [p0; p1; p2] ∧ rect h0 w0 p0 ∧ rect h1 w1 p1 ∧ rect h2 w2 p2.
Proof.
  intros Hlen Hall.
  destruct img as [|p0 [|p1 [|p2 [|]]]]; try discriminate.
  apply Forall_cons in Hall as [(h0 & w0 & H0) Hall].
  apply Forall_cons in Hall as [(h1 & w1 & H1) Hall].
  apply Forall_cons in Hall as [(h2 & w2 & H2) _].
  by exists p0, p1, p2, h0, w0, h1, w1, h2, w2.
Qed.

(** The number of blocks of the grid cut out of a plane of [h] by [w]. *)
Lemma grid_of_plane_ok {A} (h w : nat) (blocks : ndarray A) :
  rect ((h - h mod 8) / 8) ((w - w mod 8) / 8) blocks →
  well_formed blocks →
  ((nd_shape blocks).1 * (nd_shape blocks).2
   = (h - h mod 8) / 8 * ((w - w mod 8) / 8))%nat.
Proof.
  intros [Hh Hw] Hwf. unfold nd_shape, well_formed in *. cbn [fst snd]. rewrite Hh.
  destruct blocks as [bw [|row rows]]; cbn [nd_rows nd_width length] in *.
  - by rewrite <- Hh.
  - apply Forall_cons in Hw as [Hrow _]. apply Forall_cons in Hwf as [Hrow' _].
    congruence.
Qed.

(** The three grids returned for three rectangular planes. *)
Lemma dct_and_quantise_img_grids (p0 p1 p2 : list (list F))
    (h0 w0 h1 w1 h2 w2 : nat) (QL_rate QC_rate : F) :
  rect h0 w0 p0 → rect h1 w1 p1 → rect h2 w2 p2 →
  ∃ b0 b1 b2 : ndarray (list (list F)),
    view_as_blocks (crop8 p0) = Some b0
    ∧ view_as_blocks (crop8 p1) = Some b1
    ∧ view_as_blocks (crop8 p2) = Some b2
    ∧ (rect ((h0 - h0 mod 8) / 8) ((w0 - w0 mod 8) / 8) b0 ∧ well_formed b0)
    ∧ (rect ((h1 - h1 mod 8) / 8) ((w1 - w1 mod 8) / 8) b1 ∧ well_formed b1)
    ∧ (rect ((h2 - h2 mod 8) / 8) ((w2 - w2 mod 8) / 8) b2 ∧ well_formed b2)
    ∧ dct_and_quantise_img [p0; p1; p2] QL_rate QC_rate
      = Some [nd_map (transform_block 0 QL_rate QC_rate) b0;
              nd_map (transform_block 1 QL_rate QC_rate) b1;
              nd_map (transform_block 2 QL_rate QC_rate) b2].
Proof.
  intros H0 H1 H2.
  destruct (dct_and_quantise_channel_blocks 0 p0 h0 w0 QL_rate QC_rate H0)
    as (b0 & Hv0 & Hr0 & Hf0 & _ & E0).
  destruct (dct_and_quantise_channel_blocks 1 p1 h1 w1 QL_rate QC_rate H1)
    as (b1 & Hv1 & Hr1 & Hf1 & _ & E1).
  destruct (dct_and_quantise_channel_blocks 2 p2 h2 w2 QL_rate QC_rate H2)
    as (b2 & Hv2 & Hr2 & Hf2 & _ & E2).
  exists b0, b1, b2. repeat (split; [done|]).
  unfold dct_and_quantise_img. cbn [mapM lookup list_lookup mbind option_bind].
  rewrite E0, E1, E2. reflexivity.
Qed.

(** C2. Every block of every plane becomes the DCT of the block minus 128;
    when the rate of the plane (the luma rate for plane 0, the chroma rate
    for planes 1 and 2) is greater than 0 every coefficient is then divided
    by the entry of the reference matrix ([Qlum] for plane 0, [Qchrom] for
    planes 1 and 2) times the rate and truncated; when the rate is 0 the
    coefficients stay the output of the DCT. *)
Theorem dct_and_quantise_blocks (img : list (list (list F)))
    (QL_rate QC_rate : F) :
  length img = 3%nat →
  Forall (λ plane, ∃ h w, rect h w plane) img →
  ∃ out,
    dct_and_quantise_img img QL_rate QC_rate = Some out
    ∧ ∀ ch plane, img !! ch = Some plane →
        let rate := if ch is 0%nat then QL_rate else QC_rate in
        let Q := if ch is 0%nat then Qlum else Qchrom in
        ∃ blocks grid,
          view_as_blocks (crop8 plane) = Some blocks
          ∧ out !! ch = Some grid
          ∧ nd_shape grid = nd_shape blocks
          ∧ ∀ i j block, get2 blocks i j = Some block →
              let D := dct (arr_map (λ x, f_sub x (f_of_Z 128)) block) in
              ∃ coeffs,
                get2 grid i j = Some coeffs
                ∧ (f_gt0 rate = true →
                     coeffs
                     = arr_map2 (λ d q, f_trunc (f_div d (f_mul q rate))) D Q)
                ∧ (f_gt0 rate = false → coeffs = D)
                ∧ (rate = f_of_Z 0 → coeffs = D).
Proof.
  intros Hlen Hall.
  destruct (planes_inv img Hlen Hall)
    as (p0 & p1 & p2 & h0 & w0 & h1 & w1 & h2 & w2 & -> & H0 & H1 & H2).
  destruct (dct_and_quantise_img_grids p0 p1 p2 _ _ _ _ _ _ QL_rate QC_rate
              H0 H1 H2) as (b0 & b1 & b2 & Hv0 & Hv1 & Hv2 & _ & _ & _ & Hout).
  eexists. split; [exact Hout|].
  intros ch plane Hplane rate Q.
  assert (∃ blocks,
            view_as_blocks (crop8 plane) = Some blocks
            ∧ [nd_map (transform_block 0 QL_rate QC_rate) b0;
               nd_map (transform_block 1 QL_rate QC_rate) b1;
               nd_map (transform_block 2 QL_rate QC_rate) b2] !! ch
              = Some (nd_map (transform_block ch QL_rate QC_rate) blocks))
    as (blocks & Hview & Hgrid).
  { destruct ch as [|[|[|ch]]]; simplify_eq/=; eauto. }
  exists blocks, (nd_map (transform_block ch QL_rate QC_rate) blocks).
  split; [exact Hview|]. split; [exact Hgrid|].
  split; [apply nd_map_shape|].
  intros i j block Hblock D.
  exists (transform_block ch QL_rate QC_rate block).
  split; [by cbn [nd_map nd_rows]; rewrite arr_map_get2, Hblock|].
  destruct (transform_block_cases ch QL_rate QC_rate block) as [Hpos Hoff].
  split; [exact Hpos|]. split; [exact Hoff|].
  intros Hzero. apply Hoff. fold rate. rewrite Hzero. apply f_gt0_zero.
Qed.

(** ** Run lengths *)

Lemma adjacent_ne_lookup {A} (l : list A) (i : nat) (a b : A) :
  adjacent_ne l → l !! i = Some a → l !! S i = Some b → a ≠ b.
Proof.
  revert i. induction l as [|x l IH]; intros i Hl Ha Hb; [done|].
  destruct Hl as [Hx Hl]. destruct i as [|i].
  - destruct l as [|y l]; simplify_eq/=. done.
  - simpl in Ha, Hb. eauto.
Qed.

Lemma NoDup_adjacent_ne {A} (l : list A) : NoDup l → adjacent_ne l.
Proof.
  induction 1 as [|x l Hx Hl IH]; [done|]. split; [|done].
  destruct l as [|y l]; [done|]. intros ->. apply Hx. left.
Qed.

(** What [groupby_from] returns: the run under collection, extended by the
    copies of its key that head [xs], then the runs of the rest. *)
Lemma groupby_from_spec (key : Z) (group xs : list Z) :
  ∃ g rest,
    groupby_from key group xs = (key, group ++ g) :: rest
    ∧ g = replicate (length g) key
    ∧ Forall is_run rest
    ∧ adjacent_ne (key :: rest.*1)
    ∧ g ++ concat rest.*2 = xs.
Proof.
  revert key group. induction xs as [|x xs IH]; intros key group.
  - exists [], []. rewrite app_nil_r. by repeat split.
  - cbn [groupby_from]. destruct (decide (x = key)) as [->|Hne].
    + destruct (IH key (group ++ [key])) as (g & rest & Heq & Hg & Hruns & Hadj & Hcat).
      exists (key :: g), rest. rewrite Heq, <- app_assoc. split; [done|].
      split; [by cbn [length replicate]; f_equal|].
      split; [done|]. split; [done|]. by rewrite <- Hcat.
    + destruct (IH x [x]) as (g & rest & Heq & Hg & Hruns & Hadj & Hcat).
      exists [], ((x, [x] ++ g) :: rest). rewrite Heq, app_nil_r.
      split; [done|]. split; [done|]. split.
      * constructor; [|done]. split; [done|]. cbn [snd fst app length replicate].
        by f_equal.
      * split; [|by rewrite <- Hcat]. cbn [fmap list_fmap fst]. split; [|done].
        congruence.
Qed.

Lemma groupby_spec (xs : list Z) :
  Forall is_run (groupby xs)
  ∧ adjacent_ne (groupby xs).*1
  ∧ concat (groupby xs).*2 = xs.
Proof.
  destruct xs as [|x xs]; [by repeat split|]. unfold groupby.
  destruct (groupby_from_spec x [x] xs) as (g & rest & Heq & Hg & Hruns & Hadj & Hcat).
  rewrite Heq. split; [|split].
  - constructor; [|done]. split; [done|].
    cbn [snd fst app length replicate]. by f_equal.
  - exact Hadj.
  - cbn [fmap list_fmap snd concat app]. by rewrite Hcat.
Qed.

Lemma groupby_from_replicate (key : Z) (group : list Z) (n : nat) :
  groupby_from key group (replicate n key) = [(key, group ++ replicate n key)].
Proof.
  revert group. induction n as [|n IH]; intros group; cbn [replicate groupby_from].
  - by rewrite app_nil_r.
  - rewrite decide_True by done. rewrite IH, <- app_assoc. done.
Qed.

Lemma groupby_from_adjacent_ne (x : Z) (xs : list Z) :
  adjacent_ne (x :: xs) →
  groupby_from x [x] xs = (λ y, (y, [y])) <$> (x :: xs).
Proof.
  revert x. induction xs as [|y xs IH]; intros x [Hx Hxs]; [done|].
  cbn [groupby_from]. rewrite decide_False by congruence.
  rewrite (IH y Hxs). done.
Qed.

Lemma expand_runs (gs : list (Z * list Z)) :
  Forall is_run gs →
  expand (unpack_entry <$> ((λ kg, Pair (length kg.2) kg.1) <$> gs))
  = concat gs.*2.
Proof.
  unfold expand. induction 1 as [|[k g] gs [Hne Hg] Hruns IH]; [done|].
  cbn [fmap list_fmap mbind list_bind concat snd fst] in *.
  rewrite IH. f_equal. unfold unpack_entry.
  destruct (Nat.eqb_spec (length g) 1) as [H1|H1]; cbn [expand_entry].
  - rewrite Hg, H1. done.
  - by rewrite <- Hg.
Qed.

Lemma rle_expand (xs : list Z) : expand (rle xs) = xs.
Proof.
  destruct (groupby_spec xs) as (Hruns & _ & Hcat).
  unfold rle, rle_pairs. by rewrite expand_runs.
Qed.

Lemma rle_pair_length (xs : list Z) (n : nat) (v : Z) :
  Pair n v ∈ rle xs → (2 ≤ n)%nat.
Proof.
  destruct (groupby_spec xs) as (Hruns & _ & _).
  unfold rle, rle_pairs. rewrite <- list_fmap_compose.
  intros ([k g] & Heq & Hin)%list_elem_of_fmap.
  rewrite Forall_forall in Hruns. destruct (Hruns _ Hin) as [Hne _].
  cbn [compose unpack_entry snd fst] in *.
  destruct (Nat.eqb_spec (length g) 1) as [H1|H1]; simplify_eq.
  destruct g; [done|]. simpl in *. lia.
Qed.

Lemma rle_values (xs : list Z) :
  entry_value <$> rle xs = Some <$> (groupby xs).*1.
Proof.
  unfold rle, rle_pairs. rewrite <- !list_fmap_compose.
  apply list_fmap_ext. intros _ [k g] _. cbn [compose unpack_entry snd fst].
  by destruct (length g =? 1)%nat.
Qed.

Lemma rle_adjacent (xs : list Z) (i : nat) (e1 e2 : entry) :
  rle xs !! i = Some e1 → rle xs !! S i = Some e2 →
  entry_value e1 ≠ entry_value e2.
Proof.
  intros H1 H2. destruct (groupby_spec xs) as (_ & Hadj & _).
  assert (Hv1 : (entry_value <$> rle xs) !! i = Some (entry_value e1))
    by (by rewrite list_lookup_fmap, H1).
  assert (Hv2 : (entry_value <$> rle xs) !! S i = Some (entry_value e2))
    by (by rewrite list_lookup_fmap, H2).
  rewrite rle_values, list_lookup_fmap in Hv1, Hv2.
  destruct ((groupby xs).*1 !! i) as [k1|] eqn:Hk1; [|done].
  destruct ((groupby xs).*1 !! S i) as [k2|] eqn:Hk2; [|done].
  simplify_eq/=. rewrite <- Hv1, <- Hv2. intros [= Heq].
  by apply (adjacent_ne_lookup _ _ _ _ Hadj Hk1 Hk2).
Qed.

Lemma rle_no_rate (xs : list Z) (x : F) : Num x ∉ rle xs.
Proof.
  unfold rle, rle_pairs. rewrite <- list_fmap_compose.
  intros ([k g] & Heq & _)%list_elem_of_fmap.
  cbn [compose unpack_entry snd fst] in Heq.
  by destruct (length g =? 1)%nat.
Qed.

Lemma rle_replicate (n : nat) (v : Z) :
  (2 ≤ n)%nat → rle (replicate n v) = [Pair n v].
Proof.
  intros Hn. destruct n as [|n]; [lia|].
  unfold rle, rle_pairs, groupby. cbn [replicate].
  rewrite groupby_from_replicate.
  cbn [fmap list_fmap snd fst app length unpack_entry].
  rewrite length_replicate.
  destruct (Nat.eqb_spec (S n) 1); [lia|done].
Qed.

Lemma rle_adjacent_ne (xs : list Z) :
  adjacent_ne xs → rle xs = Bare <$> xs.
Proof.
  intros Hadj. destruct xs as [|x xs]; [done|].
  unfold rle, rle_pairs, groupby. rewrite groupby_from_adjacent_ne by done.
  rewrite <- !list_fmap_compose. by apply list_fmap_ext.
Qed.

(** ** Serializer *)

Lemma mapM_Some_default {A B} (f : A → option B) (d : B) (l : list A) :
  Forall (λ x, is_Some (f x)) l →
  mapM f l = Some ((λ x, default d (f x)) <$> l).
Proof.
  induction 1 as [|x l [y Hy] Hl IH]; [done|].
  cbn [mapM]. rewrite IH, fmap_cons, Hy. reflexivity.
Qed.

Lemma zigzag_order_bounds :
  Forall (λ rc, (rc.1 < 8)%nat ∧ (rc.2 < 8)%nat) zigzag_order.
Proof.
  apply (bool_decide_unpack
           (Forall (λ rc : nat * nat, (rc.1 < 8)%nat ∧ (rc.2 < 8)%nat) zigzag_order)).
  vm_compute. exact I.
Qed.

Lemma rect_get2 {A} (h w : nat) (a : list (list A)) (i j : nat) :
  rect h w a → (i < h)%nat → (j < w)%nat → is_Some (get2 a i j).
Proof.
  intros [Hh Hw] Hi Hj. unfold get2.
  destruct (lookup_lt_is_Some_2 a i) as [row Hrow]; [lia|].
  rewrite Hrow. cbn [mbind option_bind]. apply lookup_lt_is_Some_2.
  pose proof (Forall_lookup_1 _ _ _ _ Hw Hrow) as Hlen. simpl in Hlen. lia.
Qed.

Lemma get2_elem_of {A} (a : list (list A)) (i j : nat) (x : A) :
  get2 a i j = Some x → ∃ row, row ∈ a ∧ x ∈ row.
Proof.
  unfold get2. intros Hx. destruct (a !! i) as [row|] eqn:Hrow; [|done].
  exists row. split; eapply list_elem_of_lookup_2; eauto.
Qed.

Lemma zigzag_block_ok (block : list (list F)) :
  block_ok block →
  ∃ zz, zigzag_block block = Some zz
    ∧ length zz = 64%nat
    ∧ ∀ x, x ∈ zz → ∃ r c, get2 block r c = Some x.
Proof.
  intros [Hrect _].
  destruct (mapM_is_Some_2 (λ rc, get2 block rc.1 rc.2) zigzag_order) as [zz Hzz].
  { eapply Forall_impl; [exact zigzag_order_bounds|].
    intros [r c] [Hr Hc]. by apply (rect_get2 8 8). }
  exists zz. split; [exact Hzz|]. apply mapM_Some in Hzz. split.
  - by rewrite <- (Forall2_length _ _ _ Hzz).
  - intros x [i Hi]%list_elem_of_lookup.
    destruct (Forall2_lookup_r _ _ _ _ _ Hzz Hi) as ([r c] & _ & Hget).
    by exists r, c.
Qed.

Lemma zz_of_ok (block : list (list F)) :
  block_ok block →
  zigzag_block block = Some (zz_of block)
  ∧ length (zz_of block) = 64%nat
  ∧ Forall (λ x, is_Some (py_int x)) (zz_of block).
Proof.
  intros Hok. destruct (zigzag_block_ok block Hok) as (zz & Hzz & Hlen & Hin).
  unfold zz_of. rewrite Hzz. cbn [default from_option id].
  split; [done|]. split; [done|].
  apply Forall_forall. intros x Hx.
  destruct (Hin x Hx) as (r & c & Hget).
  destruct (get2_elem_of _ _ _ _ Hget) as (row & Hrow & Hxrow).
  destruct Hok as [_ Hint]. rewrite Forall_forall in Hint.
  specialize (Hint row Hrow). rewrite Forall_forall in Hint. auto.
Qed.

(** The loop over the pairs, from index [length pre] on. *)
Lemma unpack_loop (post pre : list entry) :
  Forall (λ e, ∃ n v, e = Pair n v) post →
  for_loop (λ x l,
      e ← l !! x;
      match e with
      | Pair num value =>
          Some (if (num =? 1)%nat then <[x := Bare value]> l else l)
      | _ => None
      end) (seq (length pre) (length post)) (pre ++ post)
  = Some (pre ++ (unpack_entry <$> post)).
Proof.
  intros Hpost. revert pre.
  induction Hpost as [|e post (n & v & ->) Hpost IH]; intros pre.
  - reflexivity.
  - cbn [length seq for_loop].
    rewrite (list_lookup_middle pre post (Pair n v) (length pre) eq_refl).
    rewrite option_bind_Some.
    assert (Hst : (if (n =? 1)%nat
                   then <[length pre := Bare v]> (pre ++ Pair n v :: post)
                   else pre ++ Pair n v :: post)
                  = (pre ++ [unpack_entry (Pair n v)]) ++ post).
    { rewrite <- app_assoc. cbn [unpack_entry app].
      destruct (n =? 1)%nat; [|done].
      rewrite insert_app_r_alt by lia. by rewrite Nat.sub_diag. }
    rewrite Hst, option_bind_Some.
    specialize (IH (pre ++ [unpack_entry (Pair n v)])).
    rewrite length_app in IH. cbn [length] in IH. rewrite Nat.add_1_r in IH.
    rewrite IH, <- app_assoc. reflexivity.
Qed.

Lemma unpack_singletons_rle (xs : list Z) :
  unpack_singletons (rle_pairs xs) = Some (rle xs).
Proof.
  unfold unpack_singletons, for_range.
  apply (unpack_loop (rle_pairs xs) []).
  unfold rle_pairs. apply Forall_fmap, Forall_forall. intros [k g] _.
  by exists (length g), k.
Qed.

(** The loop over the blocks of row [i], from column [length pre] on,
    appends their zigzag scans. *)
Lemma zigzag_row_loop (blocks : list (list (list (list F)))) (i : nat)
    (post pre : list (list (list F))) (acc : list F) :
  blocks !! i = Some (pre ++ post) →
  Forall block_ok post →
  for_loop (λ j acc, block ← get2 blocks i j;
                     zz ← zigzag_block block; Some (acc ++ zz))
           (seq (length pre) (length post)) acc
  = Some (acc ++ concat (zz_of <$> post)).
Proof.
  intros Hrow Hpost. revert pre acc Hrow.
  induction Hpost as [|block post Hok Hpost IH]; intros pre acc Hrow.
  - cbn. by rewrite app_nil_r.
  - assert (Hget : get2 blocks i (length pre) = Some block).
    { unfold get2. rewrite Hrow. by apply list_lookup_middle. }
    destruct (zz_of_ok block Hok) as (Hzz & _ & _).
    cbn [length seq for_loop]. rewrite Hget, option_bind_Some, Hzz.
    rewrite !option_bind_Some.
    specialize (IH (pre ++ [block]) (acc ++ zz_of block)).
    rewrite length_app in IH. cbn [length] in IH. rewrite Nat.add_1_r in IH.
    rewrite IH by (by rewrite <- app_assoc).
    rewrite fmap_cons. cbn [concat]. by rewrite app_assoc.
Qed.

(** The two nested loops, from row [length pre] on. *)
Lemma zigzag_grid_loop (blocks : list (list (list (list F)))) (w : nat)
    (post pre : list (list (list (list F)))) (acc : list F) :
  blocks = pre ++ post →
  Forall (λ row, length row = w) post →
  Forall (Forall block_ok) post →
  for_loop (λ i, for_range w (λ j acc, block ← get2 blocks i j;
                                        zz ← zigzag_block block;
                                        Some (acc ++ zz)))
           (seq (length pre) (length post)) acc
  = Some (acc ++ concat (zz_of <$> concat post)).
Proof.
  intros Hblocks Hw Hpost. revert pre acc Hblocks Hw.
  induction Hpost as [|row post Hrow Hpost IH]; intros pre acc Hblocks Hw.
  - cbn. by rewrite app_nil_r.
  - apply Forall_cons in Hw as [Hlen Hw].
    assert (Hinner : for_range w (λ j acc, block ← get2 blocks (length pre) j;
                                           zz ← zigzag_block block;
                                           Some (acc ++ zz)) acc
                     = Some (acc ++ concat (zz_of <$> row))).
    { unfold for_range. rewrite <- Hlen.
      apply (zigzag_row_loop blocks (length pre) row [] acc); [|done].
      rewrite Hblocks. by apply list_lookup_middle. }
    cbn [length seq for_loop]. rewrite Hinner, option_bind_Some.
    specialize (IH (pre ++ [row]) (acc ++ concat (zz_of <$> row))).
    rewrite length_app in IH. cbn [length] in IH. rewrite Nat.add_1_r in IH.
    rewrite IH; [|by rewrite <- app_assoc|done].
    cbn [concat]. by rewrite fmap_app, concat_app, app_assoc.
Qed.

Lemma coefficients_convert (blocks : list (list (list (list F)))) :
  Forall (Forall block_ok) blocks →
  Forall (λ x, is_Some (py_int x)) (concat (zz_of <$> concat blocks))
  ∧ Forall (λ b, is_Some (zigzag_block b)) (concat blocks)
  ∧ rect (length (concat blocks)) 64 (zz_of <$> concat blocks).
Proof.
  intros Hok. apply Forall_concat in Hok. split; [|split].
  - apply Forall_concat, Forall_fmap.
    eapply Forall_impl; [exact Hok|]. intros b Hb. by apply zz_of_ok.
  - eapply Forall_impl; [exact Hok|]. intros b Hb.
    destruct (zz_of_ok b Hb) as [Hzz _]. by rewrite Hzz.
  - split; [by rewrite length_fmap|]. apply Forall_fmap.
    eapply Forall_impl; [exact Hok|]. intros b Hb. by apply zz_of_ok.
Qed.

(** One encoded channel: the run-length entries of its coefficients, then
    the two dimensions of its grid. *)
Lemma encode_channel_spec (blocks : ndarray (list (list F))) :
  grid_ok blocks →
  encode_channel blocks
  = Some (rle (coefficients blocks)
          ++ [Bare (Z.of_nat (nd_shape blocks).1);
              Bare (Z.of_nat (nd_shape blocks).2)])
  ∧ flat_coefficients blocks = Some (coefficients blocks)
  ∧ length (coefficients blocks)
    = ((nd_shape blocks).1 * (nd_shape blocks).2 * 64)%nat.
Proof.
  intros [Hwf Hok].
  destruct (coefficients_convert blocks Hok) as (Hint & Hzz & Hzzrect).
  assert (Hloops :
    for_range (nd_shape blocks).1 (λ i,
      for_range (nd_shape blocks).2 (λ j acc,
        block ← get2 blocks i j;
        zz ← zigzag_block block;
        Some (acc ++ zz))) []
    = Some (concat (zz_of <$> concat blocks))).
  { unfold for_range at 1.
    exact (zigzag_grid_loop blocks (nd_width blocks) blocks [] [] eq_refl Hwf Hok). }
  split; [|split].
  - unfold encode_channel.
    destruct (nd_shape blocks) as [block_height block_width] eqn:Hshape.
    cbn [fst snd] in Hloops.
    rewrite Hloops, option_bind_Some.
    rewrite (mapM_Some_default py_int 0 _ Hint), option_bind_Some.
    rewrite unpack_singletons_rle, option_bind_Some. reflexivity.
  - unfold flat_coefficients.
    rewrite (mapM_Some_default zigzag_block [] _ Hzz), option_bind_Some.
    exact (mapM_Some_default py_int 0 _ Hint).
  - unfold coefficients.
    rewrite length_fmap, (rect_concat_length _ _ _ Hzzrect).
    by rewrite (rect_concat_length (length blocks) (nd_width blocks) blocks
                  (conj eq_refl Hwf)).
Qed.

Lemma pre_metadata_app (ch : nat) (blocks : ndarray (list (list F)))
    (QL_rate QC_rate : F) (body : list entry) :
  pre_metadata ch (body ++ metadata ch blocks QL_rate QC_rate) = body.
Proof.
  unfold pre_metadata. rewrite length_app.
  assert (Hlen : length (metadata ch blocks QL_rate QC_rate)
                 = if (ch =? 0)%nat then 4%nat else 2%nat) by (by destruct ch).
  rewrite <- Hlen.
  replace (length body + length (metadata ch blocks QL_rate QC_rate)
           - length (metadata ch blocks QL_rate QC_rate))%nat
    with (length body) by lia.
  apply take_app_length.
Qed.

(** The list returned by the Serializer for three grids it can encode. *)
Lemma encoded_channels (img_blocks : list (ndarray (list (list F))))
    (QL_rate QC_rate : F) :
  length img_blocks = 3%nat →
  Forall grid_ok img_blocks →
  ∃ encoded,
    encode_and_save_quantised_dct_img img_blocks QL_rate QC_rate = Some encoded
    ∧ length encoded = 3%nat
    ∧ ∀ ch (blocks : ndarray (list (list F))),
        img_blocks !! ch = Some blocks →
        grid_ok blocks
        ∧ encoded !! ch
          = Some (rle (coefficients blocks) ++ metadata ch blocks QL_rate QC_rate).
Proof.
  intros Hlen Hall.
  destruct img_blocks as [|g0 [|g1 [|g2 [|]]]]; try discriminate.
  apply Forall_cons in Hall as [H0 Hall].
  apply Forall_cons in Hall as [H1 Hall].
  apply Forall_cons in Hall as [H2 _].
  destruct (encode_channel_spec g0 H0) as (E0 & _).
  destruct (encode_channel_spec g1 H1) as (E1 & _).
  destruct (encode_channel_spec g2 H2) as (E2 & _).
  eexists. split; [|split].
  - unfold encode_and_save_quantised_dct_img.
    cbn [mapM lookup list_lookup mbind option_bind].
    rewrite E0, E1, E2. reflexivity.
  - reflexivity.
  - intros [|[|[|ch]]] blocks Hblocks; simplify_eq/=; (split; [done|]);
      unfold metadata; by rewrite <- ?app_assoc.
Qed.

Lemma coefficients_single (block : list (list F)) :
  coefficients [[block]] = int_of <$> zz_of block.
Proof. unfold coefficients. cbn [concat fmap list_fmap app]. by rewrite !app_nil_r. Qed.

Lemma fmap_const_replicate {A B} (f : A → B) (v : B) (l : list A) :
  (∀ x, x ∈ l → f x = v) → f <$> l = replicate (length l) v.
Proof.
  induction l as [|x l IH]; intros Hl; [done|].
  cbn [fmap list_fmap length replicate]. rewrite Hl by left.
  f_equal. apply IH. intros y Hy. apply Hl. by right.
Qed.

(** C1. For every channel, expanding the entries that come before the
    metadata gives back the integer coefficients in the order they were
    encoded (blocks row by row, each in zigzag order), of which there are
    [block_height * block_width * 64]; a channel of one block of zeros is
    encoded as the one pair [[64, 0]], and a channel of one block whose 64
    integers are pairwise distinct as 64 bare integers. *)
Theorem run_length_round_trip
    (img_blocks : list (ndarray (list (list F)))) (QL_rate QC_rate : F) :
  length img_blocks = 3%nat →
  Forall grid_ok img_blocks →
  ∃ encoded,
    encode_and_save_quantised_dct_img img_blocks QL_rate QC_rate = Some encoded
    ∧ ∀ ch (blocks : ndarray (list (list F))),
        img_blocks !! ch = Some blocks →
        ∃ e ints,
          encoded !! ch = Some e
          ∧ flat_coefficients blocks = Some ints
          ∧ expand (pre_metadata ch e) = ints
          ∧ length (expand (pre_metadata ch e))
            = ((nd_shape blocks).1 * (nd_shape blocks).2 * 64)%nat
          ∧ (∀ block, nd_rows blocks = [[block]] →
               (∀ r c x, get2 block r c = Some x → py_int x = Some 0) →
               pre_metadata ch e = [Pair 64 0])
          ∧ (∀ block, nd_rows blocks = [[block]] → NoDup ints →
               length ints = 64%nat ∧ pre_metadata ch e = Bare <$> ints).
Proof.
  intros Hlen Hall.
  destruct (encoded_channels img_blocks QL_rate QC_rate Hlen Hall)
    as (encoded & Henc & _ & Hch).
  exists encoded. split; [exact Henc|]. intros ch blocks Hblocks.
  destruct (Hch ch blocks Hblocks) as [Hok He].
  destruct (encode_channel_spec blocks Hok) as (_ & Hflat & Hcount).
  eexists _, (coefficients blocks). split; [exact He|].
  rewrite pre_metadata_app, rle_expand.
  split; [exact Hflat|]. split; [reflexivity|]. split; [exact Hcount|].
  split.
  - intros block Hrows Hzero.
    assert (Hb : block_ok block).
    { destruct Hok as [_ Hb]. rewrite Hrows in Hb.
      apply Forall_cons in Hb as [Hb _].
      by apply Forall_cons in Hb as [Hb _]. }
    destruct (zigzag_block_ok block Hb) as (zz & Hzz & Hlen64 & Hin).
    rewrite Hrows, coefficients_single. unfold zz_of. rewrite Hzz.
    cbn [default from_option id].
    rewrite (fmap_const_replicate int_of 0 zz), Hlen64.
    + apply rle_replicate. lia.
    + intros x Hx. destruct (Hin x Hx) as (r & c & Hget).
      unfold int_of. by rewrite (Hzero r c x Hget).
  - intros block Hrows Hnodup. split.
    + rewrite Hcount. unfold nd_shape. rewrite Hrows. cbn [fst snd length].
      destruct Hok as [Hwf _]. unfold well_formed in Hwf. rewrite Hrows in Hwf.
      apply Forall_cons in Hwf as [<- _]. reflexivity.
    + apply rle_adjacent_ne. by apply NoDup_adjacent_ne.
Qed.

(** C9. Every channel ends with the height and then the width of its block
    grid, the two first dimensions of the shape of the grid (a grid without
    rows keeps its width), placed after the run-length entries; the luma
    channel alone ends with these two dimensions followed by [QL_rate] and
    [QC_rate]. *)
Theorem trailing_metadata
    (img_blocks : list (ndarray (list (list F)))) (QL_rate QC_rate : F) :
  length img_blocks = 3%nat →
  Forall grid_ok img_blocks →
  ∃ encoded,
    encode_and_save_quantised_dct_img img_blocks QL_rate QC_rate = Some encoded
    ∧ ∀ ch (blocks : ndarray (list (list F))),
        img_blocks !! ch = Some blocks →
        ∃ e body ints,
          encoded !! ch = Some e
          ∧ flat_coefficients blocks = Some ints
          ∧ expand body = ints
          ∧ (∀ x, Num x ∉ body)
          ∧ let block_height := Bare (Z.of_nat (nd_shape blocks).1) in
            let block_width := Bare (Z.of_nat (nd_shape blocks).2) in
            (ch = 0%nat →
               e = body ++ [block_height; block_width; Num QL_rate; Num QC_rate])
            ∧ (ch ≠ 0%nat → e = body ++ [block_height; block_width]).
Proof.
  intros Hlen Hall.
  destruct (encoded_channels img_blocks QL_rate QC_rate Hlen Hall)
    as (encoded & Henc & _ & Hch).
  exists encoded. split; [exact Henc|]. intros ch blocks Hblocks.
  destruct (Hch ch blocks Hblocks) as [Hok He].
  destruct (encode_channel_spec blocks Hok) as (_ & Hflat & _).
  exists (rle (coefficients blocks) ++ metadata ch blocks QL_rate QC_rate),
    (rle (coefficients blocks)), (coefficients blocks).
  split; [exact He|]. split; [exact Hflat|]. split; [apply rle_expand|].
  split; [apply rle_no_rate|].
  split; [by intros ->|]. intros Hne. destruct ch; [done|].
  unfold metadata. by rewrite app_nil_r.
Qed.

(** C10. Before the metadata of an encoded channel every pair counts at
    least two occurrences, and no two entries next to each other stand for
    the same value. *)
Theorem runs_are_maximal
    (img_blocks : list (ndarray (list (list F)))) (QL_rate QC_rate : F) :
  length img_blocks = 3%nat →
  Forall grid_ok img_blocks →
  ∃ encoded,
    encode_and_save_quantised_dct_img img_blocks QL_rate QC_rate = Some encoded
    ∧ ∀ ch (blocks : ndarray (list (list F))),
        img_blocks !! ch = Some blocks →
        ∃ e,
          encoded !! ch = Some e
          ∧ (∀ num value, Pair num value ∈ pre_metadata ch e → (2 ≤ num)%nat)
          ∧ (∀ i e1 e2,
               pre_metadata ch e !! i = Some e1 →
               pre_metadata ch e !! S i = Some e2 →
               ∃ v1 v2, entry_value e1 = Some v1 ∧ entry_value e2 = Some v2
                        ∧ v1 ≠ v2).
Proof.
  intros Hlen Hall.
  destruct (encoded_channels img_blocks QL_rate QC_rate Hlen Hall)
    as (encoded & Henc & _ & Hch).
  exists encoded. split; [exact Henc|]. intros ch blocks Hblocks.
  destruct (Hch ch blocks Hblocks) as [Hok He].
  eexists. split; [exact He|]. rewrite pre_metadata_app. split.
  - apply rle_pair_length.
  - intros i e1 e2 H1 H2.
    pose proof (rle_adjacent _ _ _ _ H1 H2) as Hne.
    assert (Hv : ∀ e, e ∈ rle (coefficients blocks) → is_Some (entry_value e)).
    { intros [v|n v|x] Hin; [by eexists..|]. by apply rle_no_rate in Hin. }
    destruct (Hv e1) as [v1 Hv1]; [by eapply list_elem_of_lookup_2|].
    destruct (Hv e2) as [v2 Hv2]; [by eapply list_elem_of_lookup_2|].
    exists v1, v2. split; [done|]. split; [done|]. congruence.
Qed.

(** ** [compress] *)

Lemma dct_and_quantise_img_luma_off (planes : list (list (list F)))
    (QL_rate QC_rate : F) :
  f_gt0 QL_rate = false →
  dct_and_quantise_img planes QL_rate QC_rate
  = dct_and_quantise_img planes (f_of_Z 0) QC_rate.
Proof.
  intros HL. unfold dct_and_quantise_img, dct_and_quantise_channel, transform_block.
  by rewrite HL, f_gt0_zero.
Qed.

Lemma dct_and_quantise_img_chroma_off (planes : list (list (list F)))
    (QL_rate QC_rate : F) :
  f_gt0 QC_rate = false →
  dct_and_quantise_img planes QL_rate QC_rate
  = dct_and_quantise_img planes QL_rate (f_of_Z 0).
Proof.
  intros HC. unfold dct_and_quantise_img, dct_and_quantise_channel, transform_block.
  by rewrite HC, f_gt0_zero.
Qed.

Lemma down_sample_cbcr_le_1 (YCbCr : image) (sample_factor : Z) :
  sample_factor ≤ 1 →
  down_sample_cbcr YCbCr sample_factor = down_sample_cbcr YCbCr 1.
Proof.
  intros Hsf. unfold down_sample_cbcr.
  by destruct (Z.ltb_spec 1 sample_factor) as [|_]; [lia|].
Qed.

(** C7, amended. [compress] checks none of its parameters: a sample factor
    of 0 or less gives the result of the sample factor 1 (no subsampling),
    and a rate that is not greater than 0, a negative rate included, leaves
    its planes unquantised as the rate 0 does, the rate itself being
    written in the metadata. *)
Theorem compress_no_validation (original_img : image) (cbcr_downsize_rate : Z)
    (QL_rate QC_rate : F) :
  (cbcr_downsize_rate ≤ 0 →
     compress original_img cbcr_downsize_rate QL_rate QC_rate
     = compress original_img 1 QL_rate QC_rate)
  ∧ (f_gt0 QL_rate = false →
       compress original_img cbcr_downsize_rate QL_rate QC_rate
       = quantised ← dct_and_quantise_img
           (down_sample_cbcr (rgb_to_ycbcr original_img) cbcr_downsize_rate)
           (f_of_Z 0) QC_rate;
         encode_and_save_quantised_dct_img quantised QL_rate QC_rate)
  ∧ (f_gt0 QC_rate = false →
       compress original_img cbcr_downsize_rate QL_rate QC_rate
       = quantised ← dct_and_quantise_img
           (down_sample_cbcr (rgb_to_ycbcr original_img) cbcr_downsize_rate)
           QL_rate (f_of_Z 0);
         encode_and_save_quantised_dct_img quantised QL_rate QC_rate).
Proof.
  unfold compress. split; [|split].
  - intros Hsf. by rewrite down_sample_cbcr_le_1 by lia.
  - intros HL. by rewrite dct_and_quantise_img_luma_off.
  - intros HC. by rewrite dct_and_quantise_img_chroma_off.
Qed.

(** ** Further properties of the stages *)

Lemma grey_check_all :
  forallb grey_check (List.map Z.of_nat (seq 0 256)) = true.
Proof. vm_compute. reflexivity. Qed.

(** X1. A grey pixel [(v, v, v)] of [uint8] samples is converted to a pixel
    of chroma exactly (128, 128) whose luma is [v] or [v - 1]: the
    truncation of the double never gains a level and loses at most one. *)
Theorem grey_stays_neutral (img : image) (i j : nat) (v : Z) :
  get2 img i j = Some (Pixel v v v) →
  0 ≤ v ≤ 255 →
  ∃ y, get2 (rgb_to_ycbcr img) i j = Some (Pixel y 128 128) ∧ v - 1 ≤ y ≤ v.
Proof.
  intros Hp Hv.
  pose proof grey_check_all as Hall. rewrite forallb_forall in Hall.
  assert (Hin : In v (List.map Z.of_nat (seq 0 256))).
  { apply in_map_iff. exists (Z.to_nat v). split; [lia|]. apply in_seq. lia. }
  specialize (Hall v Hin). unfold grey_check in Hall.
  rewrite rgb_to_ycbcr_pointwise, arr_map_get2, Hp.
  change (ycbcr_pixel <$> Some (Pixel v v v)) with (Some (ycbcr_pixel (Pixel v v v))).
  destruct (ycbcr_pixel (Pixel v v v)) as [y cb cr]. cbn [c0 c1 c2] in Hall.
  apply andb_true_iff in Hall as [Hall Hcr].
  apply andb_true_iff in Hall as [Hall Hcb].
  apply andb_true_iff in Hall as [Hlo Hhi].
  apply Z.eqb_eq in Hcr, Hcb. apply Z.leb_le in Hlo, Hhi. subst cb cr.
  exists y. split; [reflexivity|lia].
Qed.

Lemma ceil_div_floor (n k : nat) :
  (1 ≤ k)%nat →
  ceil_div n k = (n / k + (if (n mod k =? 0)%nat then 0 else 1))%nat.
Proof.
  intros Hk. unfold ceil_div.
  pose proof (Nat.div_mod_eq n k) as Hd.
  pose proof (Nat.mod_upper_bound n k ltac:(lia)) as Hm.
  destruct (Nat.eqb_spec (n mod k) 0) as [H0|H0].
  - replace (n + (k - 1))%nat with ((k - 1) + (n / k) * k)%nat by lia.
    rewrite Nat.div_add, Nat.div_small by lia. lia.
  - replace (n + (k - 1))%nat with ((n mod k - 1) + (n / k + 1) * k)%nat by lia.
    rewrite Nat.div_add, Nat.div_small by lia. lia.
Qed.

(** X2. For [sample_factor > 1] the number of rows (columns) of the Cb and
    Cr planes is the integer quotient of the height (width) by
    [sample_factor], plus one when the division leaves a remainder: the
    planes have the dimensions [h / sample_factor] by [w / sample_factor]
    exactly when [sample_factor] divides both dimensions. *)
Theorem down_sample_quotient (YCbCr : image) (h w : nat) (sample_factor : Z) :
  (∀ h w a k, rect h w a → rect h w (boxFilter a k)) →
  rect h w YCbCr →
  1 < sample_factor →
  let k := Z.to_nat sample_factor in
  let rows := (h / k + (if (h mod k =? 0)%nat then 0 else 1))%nat in
  let cols := (w / k + (if (w mod k =? 0)%nat then 0 else 1))%nat in
  ∃ Y Cb Cr,
    down_sample_cbcr YCbCr sample_factor = [Y; Cb; Cr]
    ∧ rect rows cols Cb ∧ rect rows cols Cr
    ∧ ((h mod k = 0)%nat → (w mod k = 0)%nat →
         rect (h / k) (w / k) Cb ∧ rect (h / k) (w / k) Cr).
Proof.
  intros Hbox Hrect Hsf k rows cols. unfold down_sample_cbcr.
  destruct (Z.ltb_spec 1 sample_factor) as [_|]; [|lia].
  eexists _, _, _. split; [reflexivity|]. unfold np_float32.
  assert (Hdown : ∀ c, rect rows cols
            (arr_map f_of_Z (step_slice sample_factor
                               (boxFilter (channel c YCbCr) sample_factor)))).
  { intros c. unfold rows, cols. rewrite <- !ceil_div_floor by (unfold k; lia).
    apply arr_map_rect, step_slice_rect; [lia|]. by apply Hbox, channel_rect. }
  split; [apply Hdown|]. split; [apply Hdown|].
  intros Hh Hw. pose proof (Hdown 1%nat) as H1. pose proof (Hdown 2%nat) as H2.
  unfold rows, cols in H1, H2. rewrite Hh, Hw in H1, H2. cbn [Nat.eqb] in H1, H2.
  rewrite !Nat.add_0_r in H1, H2. done.
Qed.

Lemma lt_mul_div_8 (i n : nat) :
  (i < n - n mod 8)%nat → (i / 8 < (n - n mod 8) / 8)%nat.
Proof.
  intros Hi. destruct (sub_mod_8 n) as [_ H8].
  apply Nat.Div0.div_lt_upper_bound. lia.
Qed.

(** X3. Every sample of the cropped region sits in one block: the sample at
    row [i] and column [j], for [i < h - h % 8] and [j < w - w % 8], is the
    entry [(i % 8, j % 8)] of the block [(i / 8, j / 8)]; and no other block
    position holds it. *)
Theorem sample_in_one_block {A} (plane : list (list A)) (h w i j : nat) :
  rect h w plane →
  (i < h - h mod 8)%nat → (j < w - w mod 8)%nat →
  ∃ blocks block,
    view_as_blocks (crop8 plane) = Some blocks
    ∧ get2 blocks (i / 8) (j / 8) = Some block
    ∧ get2 block (i mod 8) (j mod 8) = get2 plane i j
    ∧ ∀ bi bj r c, (r < 8)%nat → (c < 8)%nat →
        (8 * bi + r = i)%nat → (8 * bj + c = j)%nat →
        (bi = i / 8 ∧ r = i mod 8 ∧ bj = j / 8 ∧ c = j mod 8)%nat.
Proof.
  intros Hrect Hi Hj.
  pose proof (Nat.div_mod_eq i 8) as Hdi. pose proof (Nat.div_mod_eq j 8) as Hdj.
  pose proof (Nat.mod_upper_bound i 8 ltac:(lia)) as Hmi.
  pose proof (Nat.mod_upper_bound j 8 ltac:(lia)) as Hmj.
  destruct (crop8_view_as_blocks plane h w Hrect)
    as (blocks & Hview & Hrows & _).
  exists blocks, (block_at (crop8 plane) (i / 8) (j / 8)).
  split; [exact Hview|]. rewrite Hrows.
  split; [apply blocks_grid_get2; by apply lt_mul_div_8|].
  split.
  - rewrite block_at_get2 by done. rewrite <- Hdi, <- Hdj.
    rewrite (crop8_slice2 h w) by done. by apply slice2_get2.
  - intros bi bj r c Hr Hc Hbi Hbj.
    assert (bi = i / 8)%nat by (apply (Nat.div_unique i 8 bi r); lia).
    assert (bj = j / 8)%nat by (apply (Nat.div_unique j 8 bj c); lia).
    lia.
Qed.

(** X4. The crop drops exactly the rows from [h - h % 8] on and the columns
    from [w - w % 8] on; it changes nothing when both dimensions are
    multiples of 8, and cropping the rows of a cropped plane changes
    nothing (nor its shape, when the plane has 8 rows or more). *)
Theorem crop8_idempotent {A} (plane : list (list A)) (h w : nat) :
  rect h w plane →
  nd_rows (crop8 (crop8 plane)) = nd_rows (crop8 plane)
  ∧ ((8 ≤ h)%nat → crop8 (crop8 plane) = crop8 plane)
  ∧ ((h mod 8 = 0)%nat → (w mod 8 = 0)%nat →
       nd_rows (crop8 plane) = plane ∧ nd_shape (crop8 plane) = shape plane)
  ∧ ∀ i j, (h - h mod 8 ≤ i)%nat ∨ (w - w mod 8 ≤ j)%nat →
      get2 (crop8 plane) i j = None.
Proof.
  intros Hrect. pose proof (crop8_rect plane h w Hrect) as Hrect'.
  destruct (sub_mod_8 h) as [Hh H8]. destruct (sub_mod_8 w) as [Hw _].
  assert (Hidem : nd_rows (crop8 (crop8 plane)) = nd_rows (crop8 plane)).
  { rewrite (crop8_slice2 _ _ (crop8 plane) Hrect'), Hh, Hw, !Nat.sub_0_r.
    by apply slice2_full. }
  split; [exact Hidem|]. split; [|split].
  - intros Hh8.
    assert (Hne : plane ≠ []).
    { intros ->. apply rect_nil_inv in Hrect. lia. }
    assert (Hne' : nd_rows (crop8 plane) ≠ []).
    { intros Hnil. destruct Hrect' as [Hlen _]. rewrite Hnil in Hlen.
      cbn [length] in Hlen. pose proof (Nat.div_mod_eq h 8).
      assert (1 ≤ h / 8)%nat by (apply Nat.div_le_lower_bound; lia). lia. }
    pose proof (crop8_width _ _ (crop8 plane) Hrect' Hne') as Hwidth'.
    rewrite Hw, Nat.sub_0_r in Hwidth'.
    pose proof (crop8_width h w plane Hrect Hne) as Hwidth.
    destruct (crop8 (crop8 plane)) as [w2 rows2].
    destruct (crop8 plane) as [w1 rows1]. cbn [nd_rows nd_width] in *.
    congruence.
  - intros Hh0 Hw0. split.
    + rewrite (crop8_slice2 h w) by done.
      rewrite Hh0, Hw0, !Nat.sub_0_r. by apply slice2_full.
    + unfold crop8. destruct (shape plane) as [height width] eqn:Hshape.
      destruct (decide (plane = [])) as [->|Hne].
      * by injection Hshape as <- <-.
      * rewrite (shape_rect h w plane Hrect Hne) in Hshape.
        injection Hshape as <- <-. rewrite Hh0, Hw0.
        unfold nd_shape. cbn [orb Nat.ltb Nat.leb nd_rows nd_width].
        by destruct Hrect as [-> _].
  - intros i j Hij. destruct Hrect' as [Hlen Hrows]. unfold get2.
    destruct (nd_rows (crop8 plane) !! i) as [row|] eqn:Hrow; [|done].
    cbn [mbind option_bind]. apply lookup_ge_None.
    pose proof (Forall_lookup_1 _ _ _ _ Hrows Hrow) as Hlrow. cbv beta in Hlrow.
    apply lookup_lt_Some in Hrow. lia.
Qed.

Lemma concat_nil_rows {A} (a : list (list A)) :
  concat a = [] → Forall (λ row, row = []) a.
Proof.
  induction a as [|row a IH]; [constructor|]. cbn [concat].
  intros [-> Ha]%app_eq_nil. constructor; [done|]. by apply IH.
Qed.

Lemma rle_nil : rle [] = [].
Proof. reflexivity. Qed.

(** X5. A plane with fewer than 8 rows or fewer than 8 columns gives a grid
    without any block, of the shape [(h / 8, w / 8)], and its channel is
    encoded as two bare entries, [h / 8] and [w / 8], with no coefficient
    at all: a plane of 4 by 20 is encoded as [[0, 2]]. *)
Theorem small_plane_no_coefficients (ch : nat) (plane : list (list F))
    (h w : nat) (QL_rate QC_rate : F) :
  rect h w plane →
  (0 < h)%nat →
  (h < 8)%nat ∨ (w < 8)%nat →
  ∃ grid : ndarray (list (list F)),
    dct_and_quantise_channel ch plane QL_rate QC_rate = Some grid
    ∧ nd_shape grid = ((h / 8)%nat, (w / 8)%nat)
    ∧ concat grid = []
    ∧ encode_channel grid
      = Some [Bare (Z.of_nat (h / 8)); Bare (Z.of_nat (w / 8))].
Proof.
  intros Hrect Hpos Hsmall.
  assert (Hne : plane ≠ []).
  { intros ->. apply rect_nil_inv in Hrect. lia. }
  destruct (dct_and_quantise_channel_blocks ch plane h w QL_rate QC_rate Hrect)
    as (blocks & _ & Hblocks & Hwf & Hshape & Heq).
  specialize (Hshape Hne). rewrite !div_8_sub_mod in Hshape, Hblocks.
  set (grid := nd_map (transform_block ch QL_rate QC_rate) blocks) in *.
  assert (Hgshape : nd_shape grid = ((h / 8)%nat, (w / 8)%nat))
    by (unfold grid; by rewrite nd_map_shape).
  assert (Hgwf : well_formed grid) by (by apply nd_map_well_formed).
  assert (Hzero : (h / 8 * (w / 8) = 0)%nat).
  { destruct Hsmall as [Hh|Hw].
    - by rewrite (Nat.div_small h 8).
    - rewrite (Nat.div_small w 8) by done. lia. }
  assert (Hnil : concat grid = []).
  { apply nil_length_inv.
    rewrite (rect_concat_length (length grid) (nd_width grid) grid
               (conj eq_refl Hgwf)).
    change ((nd_shape grid).1 * (nd_shape grid).2 = 0)%nat.
    by rewrite Hgshape. }
  assert (Hok : grid_ok grid).
  { split; [exact Hgwf|].
    eapply Forall_impl; [exact (concat_nil_rows _ Hnil)|].
    intros row ->. constructor. }
  destruct (encode_channel_spec grid Hok) as (Henc & _).
  exists grid. split; [exact Heq|]. split; [exact Hgshape|].
  split; [exact Hnil|].
  rewrite Henc, Hgshape. unfold coefficients. rewrite Hnil. reflexivity.
Qed.

Lemma runs_length (gs : list (Z * list Z)) :
  Forall is_run gs → (length gs ≤ length (concat gs.*2))%nat.
Proof.
  induction 1 as [|[k g] gs [Hne _] Hruns IH]; [done|].
  cbn [fmap list_fmap concat snd length] in *. rewrite length_app.
  destruct g; [done|]. cbn [length]. lia.
Qed.

Lemma rle_length (xs : list Z) : (length (rle xs) ≤ length xs)%nat.
Proof.
  destruct (groupby_spec xs) as (Hruns & _ & Hcat).
  unfold rle, rle_pairs. rewrite !length_fmap. rewrite <- Hcat at 2.
  by apply runs_length.
Qed.

(** X6. The run-length entries of a channel are never more than its
    coefficients: an encoded channel is at most as long as its coefficient
    sequence plus the metadata (two entries, four for the luma channel). *)
Theorem encoding_not_longer
    (img_blocks : list (ndarray (list (list F)))) (QL_rate QC_rate : F) :
  length img_blocks = 3%nat →
  Forall grid_ok img_blocks →
  ∃ encoded,
    encode_and_save_quantised_dct_img img_blocks QL_rate QC_rate = Some encoded
    ∧ ∀ ch (blocks : ndarray (list (list F))),
        img_blocks !! ch = Some blocks →
        ∃ e ints,
          encoded !! ch = Some e
          ∧ flat_coefficients blocks = Some ints
          ∧ (length (pre_metadata ch e) ≤ length ints)%nat
          ∧ (length e ≤ length ints + (if ch is 0 then 4 else 2))%nat.
Proof.
  intros Hlen Hall.
  destruct (encoded_channels img_blocks QL_rate QC_rate Hlen Hall)
    as (encoded & Henc & _ & Hch).
  exists encoded. split; [exact Henc|]. intros ch blocks Hblocks.
  destruct (Hch ch blocks Hblocks) as [Hok He].
  destruct (encode_channel_spec blocks Hok) as (_ & Hflat & _).
  eexists _, (coefficients blocks). split; [exact He|]. split; [exact Hflat|].
  rewrite pre_metadata_app, length_app.
  pose proof (rle_length (coefficients blocks)) as Hle.
  split; [exact Hle|]. destruct ch; cbn [metadata length app]; lia.
Qed.

(** X7. The encoding of a channel loses nothing: two grids that are encoded
    as the same channel have the same integer coefficients in the same
    order and the same grid dimensions. *)
Theorem encode_channel_injective
    (blocks1 blocks2 : ndarray (list (list F))) :
  grid_ok blocks1 → grid_ok blocks2 →
  encode_channel blocks1 = encode_channel blocks2 →
  flat_coefficients blocks1 = flat_coefficients blocks2
  ∧ nd_shape blocks1 = nd_shape blocks2.
Proof.
  intros Hok1 Hok2 Heq.
  destruct (encode_channel_spec blocks1 Hok1) as (E1 & F1 & _).
  destruct (encode_channel_spec blocks2 Hok2) as (E2 & F2 & _).
  rewrite E1, E2 in Heq. injection Heq as Heq.
  apply app_inj_2 in Heq as [Hbody Hmeta]; [|reflexivity].
  split.
  - rewrite F1, F2. f_equal.
    rewrite <- (rle_expand (coefficients blocks1)), Hbody. apply rle_expand.
  - unfold nd_shape in *. cbn [fst snd] in Hmeta. simplify_eq. by f_equal.
Qed.

(** X8. The chroma rate never reaches the luma plane nor the luma rate the
    chroma planes: the grid of plane 0 is the same for every [QC_rate] and
    the grids of planes 1 and 2 are the same for every [QL_rate]. *)
Theorem rates_do_not_interfere (img : list (list (list F)))
    (QL_rate QC_rate QL_rate' QC_rate' : F) :
  length img = 3%nat →
  Forall (λ plane, ∃ h w, rect h w plane) img →
  ∃ q q1 q2,
    dct_and_quantise_img img QL_rate QC_rate = Some q
    ∧ dct_and_quantise_img img QL_rate QC_rate' = Some q1
    ∧ dct_and_quantise_img img QL_rate' QC_rate = Some q2
    ∧ q !! 0%nat = q1 !! 0%nat
    ∧ q !! 1%nat = q2 !! 1%nat
    ∧ q !! 2%nat = q2 !! 2%nat.
Proof.
  intros Hlen Hall.
  destruct (planes_inv img Hlen Hall)
    as (p0 & p1 & p2 & h0 & w0 & h1 & w1 & h2 & w2 & -> & H0 & H1 & H2).
  destruct (dct_and_quantise_img_grids p0 p1 p2 _ _ _ _ _ _ QL_rate QC_rate
              H0 H1 H2) as (b0 & b1 & b2 & Hv0 & Hv1 & Hv2 & _ & _ & _ & Hq).
  destruct (dct_and_quantise_img_grids p0 p1 p2 _ _ _ _ _ _ QL_rate QC_rate'
              H0 H1 H2) as (c0 & c1 & c2 & Hc0 & Hc1 & Hc2 & _ & _ & _ & Hq1).
  destruct (dct_and_quantise_img_grids p0 p1 p2 _ _ _ _ _ _ QL_rate' QC_rate
              H0 H1 H2) as (d0 & d1 & d2 & Hd0 & Hd1 & Hd2 & _ & _ & _ & Hq2).
  simplify_eq. eexists _, _, _.
  split; [exact Hq|]. split; [exact Hq1|]. split; [exact Hq2|].
  repeat split.
Qed.

(** X9. Both stages index three planes: with fewer than three in the list
    they fail (an [IndexError]), whatever the rates. *)
Theorem fewer_than_three_planes (img : list (list (list F)))
    (img_blocks : list (ndarray (list (list F)))) (QL_rate QC_rate : F) :
  ((length img < 3)%nat → dct_and_quantise_img img QL_rate QC_rate = None)
  ∧ ((length img_blocks < 3)%nat →
       encode_and_save_quantised_dct_img img_blocks QL_rate QC_rate = None).
Proof.
  split.
  - intros Hlen. unfold dct_and_quantise_img.
    destruct img as [|p0 [|p1 [|p2 img]]]; cbn [length] in Hlen; try lia;
      cbn [mapM lookup list_lookup mbind option_bind];
      repeat (destruct (dct_and_quantise_channel _ _ _ _);
              cbn [mbind option_bind]); reflexivity.
  - intros Hlen. unfold encode_and_save_quantised_dct_img.
    destruct img_blocks as [|g0 [|g1 [|g2 gs]]]; cbn [length] in Hlen; try lia;
      cbn [mapM lookup list_lookup mbind option_bind];
      repeat (destruct (encode_channel _); cbn [mbind option_bind]);
      reflexivity.
Qed.

(** ** The stages composed *)

(** The three planes of [down_sample_cbcr] and their dimensions. *)
Lemma down_sample_rects (YCbCr : image) (h w : nat) (sample_factor : Z) :
  (∀ h w a k, rect h w a → rect h w (boxFilter a k)) →
  rect h w YCbCr →
  let ch := if 1 <? sample_factor then ceil_div h (Z.to_nat sample_factor) else h in
  let cw := if 1 <? sample_factor then ceil_div w (Z.to_nat sample_factor) else w in
  ∃ p0 p1 p2,
    down_sample_cbcr YCbCr sample_factor = [p0; p1; p2]
    ∧ rect h w p0 ∧ rect ch cw p1 ∧ rect ch cw p2.
Proof.
  intros Hbox Hrect ch cw. unfold down_sample_cbcr, np_float32. subst ch cw.
  destruct (Z.ltb_spec 1 sample_factor) as [Hsf|Hsf].
  - eexists _, _, _. split; [reflexivity|].
    split; [by apply arr_map_rect, channel_rect|].
    split; apply arr_map_rect, step_slice_rect; try lia;
      by apply Hbox, channel_rect.
  - eexists _, _, _. split; [reflexivity|].
    repeat (split; [by apply arr_map_rect, channel_rect|]).
    by apply arr_map_rect, channel_rect.
Qed.

(** X10. On an image of [h] by [w] pixels, when every coefficient that
    reaches the encoder is one that [int] accepts, [compress] returns three
    channels; the luma channel expands to [(h / 8) * (w / 8) * 64]
    coefficients and each chroma channel to [(ch / 8) * (cw / 8) * 64],
    where [ch] by [cw] are the dimensions of the chroma planes: those of the
    image when [cbcr_downsize_rate] is at most 1, else these divided by
    [cbcr_downsize_rate] and rounded up. *)
Theorem compress_coefficient_counts (original_img : image) (h w : nat)
    (cbcr_downsize_rate : Z) (QL_rate QC_rate : F) :
  (∀ h w a k, rect h w a → rect h w (boxFilter a k)) →
  rect h w original_img →
  (∀ q,
     dct_and_quantise_img
       (down_sample_cbcr (rgb_to_ycbcr original_img) cbcr_downsize_rate)
       QL_rate QC_rate = Some q →
     Forall grid_ok q) →
  let k := Z.to_nat cbcr_downsize_rate in
  let ch := if 1 <? cbcr_downsize_rate then ceil_div h k else h in
  let cw := if 1 <? cbcr_downsize_rate then ceil_div w k else w in
  ∃ e0 e1 e2,
    compress original_img cbcr_downsize_rate QL_rate QC_rate = Some [e0; e1; e2]
    ∧ length (expand (pre_metadata 0 e0)) = (h / 8 * (w / 8) * 64)%nat
    ∧ length (expand (pre_metadata 1 e1)) = (ch / 8 * (cw / 8) * 64)%nat
    ∧ length (expand (pre_metadata 2 e2)) = (ch / 8 * (cw / 8) * 64)%nat.
Proof.
  intros Hbox Hrect Hok k ch cw.
  assert (HY : rect h w (rgb_to_ycbcr original_img))
    by (rewrite rgb_to_ycbcr_pointwise; by apply arr_map_rect).
  destruct (down_sample_rects _ h w cbcr_downsize_rate Hbox HY)
    as (p0 & p1 & p2 & Hplanes & R0 & R1 & R2).
  fold k ch cw in R1, R2. rewrite Hplanes in Hok.
  destruct (dct_and_quantise_img_grids p0 p1 p2 _ _ _ _ _ _ QL_rate QC_rate
              R0 R1 R2) as (b0 & b1 & b2 & _ & _ & _ & B0 & B1 & B2 & Hq).
  destruct B0 as [B0 F0]. destruct B1 as [B1 F1]. destruct B2 as [B2 F2].
  specialize (Hok _ Hq).
  destruct (encoded_channels
              [nd_map (transform_block 0 QL_rate QC_rate) b0;
               nd_map (transform_block 1 QL_rate QC_rate) b1;
               nd_map (transform_block 2 QL_rate QC_rate) b2]
              QL_rate QC_rate eq_refl Hok)
    as (encoded & Henc & Hlen & Hch).
  destruct (Hch 0%nat _ eq_refl) as [Hok0 He0].
  destruct (Hch 1%nat _ eq_refl) as [Hok1 He1].
  destruct (Hch 2%nat _ eq_refl) as [Hok2 He2].
  destruct encoded as [|e0 [|e1 [|e2 [|]]]]; try discriminate.
  cbn [lookup list_lookup] in He0, He1, He2.
  injection He0 as ->. injection He1 as ->. injection He2 as ->.
  eexists _, _, _. split.
  { unfold compress. rewrite Hplanes, Hq, option_bind_Some. exact Henc. }
  rewrite !pre_metadata_app, !rle_expand.
  destruct (encode_channel_spec _ Hok0) as (_ & _ & C0).
  destruct (encode_channel_spec _ Hok1) as (_ & _ & C1).
  destruct (encode_channel_spec _ Hok2) as (_ & _ & C2).
  cbn [nd_map nd_rows] in C0, C1, C2. rewrite C0, C1, C2.
  fold (nd_map (transform_block 0 QL_rate QC_rate) b0).
  fold (nd_map (transform_block 1 QL_rate QC_rate) b1).
  fold (nd_map (transform_block 2 QL_rate QC_rate) b2).
  rewrite !nd_map_shape.
  rewrite (grid_of_plane_ok _ _ _ B0 F0), (grid_of_plane_ok _ _ _ B1 F1),
    (grid_of_plane_ok _ _ _ B2 F2).
  by rewrite !div_8_sub_mod.
Qed.

Lemma mapM_three {B} (f : nat → option B) (l : list B) :
  mapM f [0; 1; 2]%nat = Some l →
  ∃ y0 y1 y2,
    f 0%nat = Some y0 ∧ f 1%nat = Some y1 ∧ f 2%nat = Some y2
    ∧ l = [y0; y1; y2].
Proof.
  cbn [mapM]. intros Hl.
  destruct (f 0%nat) as [y0|]; [|done].
  destruct (f 1%nat) as [y1|]; [|done].
  destruct (f 2%nat) as [y2|]; [|done].
  cbn in Hl. injection Hl as <-. by exists y0, y1, y2.
Qed.

Lemma down_sample_luma (YCbCr : image) (sample_factor : Z) :
  ∃ cb cr,
    down_sample_cbcr YCbCr sample_factor
    = [np_float32 (channel 0 YCbCr); cb; cr].
Proof.
  unfold down_sample_cbcr. destruct (1 <? sample_factor); by eexists _, _.
Qed.

(** The luma channel of an encoding returned by [compress]. *)
Lemma compress_luma (original_img : image) (cbcr_downsize_rate : Z)
    (QL_rate QC_rate : F) (encoded : list (list entry)) :
  compress original_img cbcr_downsize_rate QL_rate QC_rate = Some encoded →
  ∃ g0 e0,
    dct_and_quantise_channel 0
      (np_float32 (channel 0 (rgb_to_ycbcr original_img))) QL_rate QC_rate
    = Some g0
    ∧ encode_channel g0 = Some e0
    ∧ encoded !! 0%nat = Some (e0 ++ [Num QL_rate; Num QC_rate]).
Proof.
  unfold compress.
  destruct (down_sample_luma (rgb_to_ycbcr original_img) cbcr_downsize_rate)
    as (cb & cr & ->).
  destruct (dct_and_quantise_img _ QL_rate QC_rate) as [q|] eqn:Hq; [|done].
  rewrite option_bind_Some. unfold dct_and_quantise_img in Hq.
  apply mapM_three in Hq as (g0 & g1 & g2 & Hg0 & _ & _ & ->).
  cbn [lookup list_lookup mbind option_bind] in Hg0.
  unfold encode_and_save_quantised_dct_img.
  destruct (mapM _ [0; 1; 2]%nat) as [l|] eqn:Hl; [|done].
  apply mapM_three in Hl as (e0 & e1 & e2 & He0 & _ & _ & ->).
  cbn [lookup list_lookup mbind option_bind] in He0.
  rewrite option_bind_Some. intros [= <-]. by exists g0, e0.
Qed.

(** X11. Subsampling never touches the luma: two encodings returned by
    [compress] for one image and one pair of rates, whatever the two sample
    factors, have the same luma channel. *)
Theorem luma_ignores_sample_factor (original_img : image)
    (sample_factor sample_factor' : Z) (QL_rate QC_rate : F)
    (encoded encoded' : list (list entry)) :
  compress original_img sample_factor QL_rate QC_rate = Some encoded →
  compress original_img sample_factor' QL_rate QC_rate = Some encoded' →
  encoded !! 0%nat = encoded' !! 0%nat.
Proof.
  intros (g0 & e0 & Hg0 & He0 & ->)%compress_luma.
  intros (g0' & e0' & Hg0' & He0' & ->)%compress_luma.
  by simplify_eq.
Qed.

(** ** Coefficients that [int] refuses *)

Lemma zigzag_order_complete (r c : nat) :
  (r < 8)%nat → (c < 8)%nat → (r, c) ∈ zigzag_order.
Proof.
  intros Hr Hc.
  do 8 (destruct r as [|r];
        [do 8 (destruct c as [|c];
               [apply (bool_decide_unpack _); vm_compute; exact I|]); lia|]).
  lia.
Qed.

Lemma get2_lt {A} (h w : nat) (a : list (list A)) (i j : nat) (x : A) :
  rect h w a → get2 a i j = Some x → (i < h)%nat ∧ (j < w)%nat.
Proof.
  intros [Hh Hw] Hget. unfold get2 in Hget.
  destruct (a !! i) as [row|] eqn:Hrow; [|done].
  cbn [mbind option_bind] in Hget.
  pose proof (Forall_lookup_1 _ _ _ _ Hw Hrow) as Hlen. cbv beta in Hlen.
  apply lookup_lt_Some in Hrow, Hget. lia.
Qed.

(** The zigzag scan of a block of 8 by 8 holds every entry of the block. *)
Lemma zigzag_block_covers (block : list (list F)) :
  rect 8 8 block →
  ∃ zz, zigzag_block block = Some zz
    ∧ ∀ r c x, get2 block r c = Some x → x ∈ zz.
Proof.
  intros Hrect.
  destruct (mapM_is_Some_2 (λ rc, get2 block rc.1 rc.2) zigzag_order) as [zz Hzz].
  { eapply Forall_impl; [exact zigzag_order_bounds|].
    intros [r c] [Hr Hc]. by apply (rect_get2 8 8). }
  exists zz. split; [exact Hzz|]. apply mapM_Some in Hzz.
  intros r c x Hget. destruct (get2_lt 8 8 _ _ _ _ Hrect Hget) as [Hr Hc].
  destruct (proj1 (list_elem_of_lookup _ _) (zigzag_order_complete r c Hr Hc))
    as [idx Hidx].
  destruct (Forall2_lookup_l _ _ _ _ _ Hzz Hidx) as (y & Hy & Hry).
  cbn [fst snd] in Hry. rewrite Hget in Hry. injection Hry as <-.
  by eapply list_elem_of_lookup_2.
Qed.

Lemma zigzag_row_loop_gen (blocks : list (list (list (list F)))) (i : nat)
    (post pre : list (list (list F))) (acc : list F) :
  blocks !! i = Some (pre ++ post) →
  Forall (λ b, is_Some (zigzag_block b)) post →
  for_loop (λ j acc, block ← get2 blocks i j;
                     zz ← zigzag_block block; Some (acc ++ zz))
           (seq (length pre) (length post)) acc
  = Some (acc ++ concat (zz_of <$> post)).
Proof.
  intros Hrow Hpost. revert pre acc Hrow.
  induction Hpost as [|block post [zz Hzz] Hpost IH]; intros pre acc Hrow.
  - cbn. by rewrite app_nil_r.
  - assert (Hget : get2 blocks i (length pre) = Some block).
    { unfold get2. rewrite Hrow. by apply list_lookup_middle. }
    assert (Hzz' : zz_of block = zz) by (unfold zz_of; by rewrite Hzz).
    cbn [length seq for_loop]. rewrite Hget, option_bind_Some, Hzz.
    rewrite !option_bind_Some.
    specialize (IH (pre ++ [block]) (acc ++ zz)).
    rewrite length_app in IH. cbn [length] in IH. rewrite Nat.add_1_r in IH.
    rewrite IH by (by rewrite <- app_assoc).
    rewrite fmap_cons, Hzz'. cbn [concat]. by rewrite app_assoc.
Qed.

Lemma zigzag_grid_loop_gen (blocks : list (list (list (list F)))) (w : nat)
    (post pre : list (list (list (list F)))) (acc : list F) :
  blocks = pre ++ post →
  Forall (λ row, length row = w) post →
  Forall (Forall (λ b, is_Some (zigzag_block b))) post →
  for_loop (λ i, for_range w (λ j acc, block ← get2 blocks i j;
                                        zz ← zigzag_block block;
                                        Some (acc ++ zz)))
           (seq (length pre) (length post)) acc
  = Some (acc ++ concat (zz_of <$> concat post)).
Proof.
  intros Hblocks Hw Hpost. revert pre acc Hblocks Hw.
  induction Hpost as [|row post Hrow Hpost IH]; intros pre acc Hblocks Hw.
  - cbn. by rewrite app_nil_r.
  - apply Forall_cons in Hw as [Hlen Hw].
    assert (Hinner : for_range w (λ j acc, block ← get2 blocks (length pre) j;
                                           zz ← zigzag_block block;
                                           Some (acc ++ zz)) acc
                     = Some (acc ++ concat (zz_of <$> row))).
    { unfold for_range. rewrite <- Hlen.
      apply (zigzag_row_loop_gen blocks (length pre) row [] acc); [|done].
      rewrite Hblocks. by apply list_lookup_middle. }
    cbn [length seq for_loop]. rewrite Hinner, option_bind_Some.
    specialize (IH (pre ++ [row]) (acc ++ concat (zz_of <$> row))).
    rewrite length_app in IH. cbn [length] in IH. rewrite Nat.add_1_r in IH.
    rewrite IH; [|by rewrite <- app_assoc|done].
    cbn [concat]. by rewrite fmap_app, concat_app, app_assoc.
Qed.

Lemma elem_of_concat_2 {A} (x : A) (l : list A) (ls : list (list A)) :
  x ∈ l → l ∈ ls → x ∈ concat ls.
Proof.
  intros Hx Hl. induction Hl as [l ls|l l' ls Hl IH]; cbn [concat];
    apply elem_of_app; auto.
Qed.

(** X12. A coefficient that [int] refuses (an infinity, a NaN) in any block
    of a grid of 8 by 8 blocks makes the encoding of the channel fail: no
    encoding is returned in which the coefficient would be missing or
    replaced. *)
Theorem encode_channel_rejects (blocks : ndarray (list (list F)))
    (i j r c : nat) (block : list (list F)) (x : F) :
  well_formed blocks →
  Forall (Forall (rect 8 8)) blocks →
  get2 blocks i j = Some block →
  get2 block r c = Some x →
  py_int x = None →
  encode_channel blocks = None.
Proof.
  intros Hwf Hshape Hblock Hx Hnone.
  assert (Hzz : Forall (Forall (λ b, is_Some (zigzag_block b))) blocks).
  { eapply Forall_impl; [exact Hshape|]. intros row Hrow.
    eapply Forall_impl; [exact Hrow|]. intros b Hb.
    destruct (zigzag_block_covers b Hb) as (zz & -> & _). by eexists. }
  assert (Hloops :
    for_range (nd_shape blocks).1 (λ i,
      for_range (nd_shape blocks).2 (λ j acc,
        block ← get2 blocks i j;
        zz ← zigzag_block block;
        Some (acc ++ zz))) []
    = Some (concat (zz_of <$> concat blocks))).
  { unfold for_range at 1.
    exact (zigzag_grid_loop_gen blocks (nd_width blocks) blocks [] []
             eq_refl Hwf Hzz). }
  unfold encode_channel.
  destruct (nd_shape blocks) as [block_height block_width].
  cbn [fst snd] in Hloops. rewrite Hloops, option_bind_Some.
  rewrite (mapM_None_2 py_int); [reflexivity|].
  apply Exists_exists. exists x. split; [|exact Hnone].
  destruct (get2_elem_of _ _ _ _ Hblock) as (row & Hrow & Hbrow).
  assert (Hb8 : rect 8 8 block).
  { rewrite Forall_forall in Hshape. specialize (Hshape row Hrow).
    rewrite Forall_forall in Hshape. by apply Hshape. }
  destruct (zigzag_block_covers block Hb8) as (zz & Hzzb & Hcover).
  apply (elem_of_concat_2 x (zz_of block)).
  - unfold zz_of. rewrite Hzzb. cbn [default from_option id]. by eapply Hcover.
  - apply list_elem_of_fmap_2. by apply (elem_of_concat_2 block row).
Qed.

End Pipeline.

(** ** The model at concrete inputs *)

Lemma boxFilter_ref_rect (h w : nat) (a : list (list Z)) (k : Z) :
  rect h w a → rect h w (boxFilter_ref a k).
Proof.
  intros [Hh Hw]. unfold boxFilter_ref. split.
  - by rewrite length_imap.
  - apply Forall_lookup. intros i row Hrow.
    rewrite list_lookup_imap in Hrow.
    destruct (a !! i) as [row0|] eqn:Hrow0; simplify_eq/=.
    rewrite length_imap. exact (Forall_lookup_1 _ _ _ _ Hw Hrow0).
Qed.

Lemma zero_block_ok : block_ok zero_block.
Proof. repeat (first [reflexivity | econstructor]). Qed.

Lemma zero_grid_ok : grid_ok zero_grid.
Proof.
  split.
  - constructor; [reflexivity|constructor].
  - constructor; [|constructor]. constructor; [|constructor].
    exact zero_block_ok.
Qed.

Lemma flat_grids_ok : Forall grid_ok flat_grids.
Proof.
  constructor; [|repeat (constructor; [by split; constructor|]); constructor].
  split; [constructor; [reflexivity|constructor]|].
  constructor; [|constructor].
  repeat (constructor; [exact zero_block_ok|]). constructor.
Qed.

Lemma zero_grids_ok : Forall grid_ok zero_grids.
Proof. repeat (constructor; [exact zero_grid_ok|]). constructor. Qed.

Lemma zero_block_int (r c : nat) (x : float) :
  get2 zero_block r c = Some x → py_int x = Some 0.
Proof.
  intros Hget. destruct (get2_elem_of _ _ _ _ Hget) as (row & Hrow & Hx).
  apply elem_of_replicate in Hrow as [-> _].
  by apply elem_of_replicate in Hx as [-> _].
Qed.

(** The colour conversion in double precision: the grey (128, 128, 128)
    is stored with the luma 127. *)
Example rgb_to_ycbcr_sample :
  rgb_to_ycbcr [[Pixel 128 128 128; Pixel 255 255 255]; [Pixel 0 0 255; Pixel 255 255 0]]
  = [[Pixel 127 128 128; Pixel 255 128 128]; [Pixel 29 255 107; Pixel 225 0 148]].
Proof. vm_compute. reflexivity. Qed.

(** The encoder on a ramp of 64 distinct coefficients and on a block of
    zeros. *)
Example encode_ramp_and_zeros :
  encode_and_save_quantised_dct_img
    [NdArray 1 [[ramp_block]]; zero_grid; NdArray 0 []] 1%float 2%float
  = Some [(Bare <$> [0; 1; 8; 16; 9; 2; 3; 10; 17; 24; 32; 25; 18; 11; 4; 5;
                     12; 19; 26; 33; 40; 48; 41; 34; 27; 20; 13; 6; 7; 14; 21;
                     28; 35; 42; 49; 56; 57; 50; 43; 36; 29; 22; 15; 23; 30;
                     37; 44; 51; 58; 59; 52; 45; 38; 31; 39; 46; 53; 60; 61;
                     54; 47; 55; 62; 63])
          ++ [Bare 1; Bare 1; Num 1%float; Num 2%float];
          [Pair 64 0; Bare 1; Bare 1];
          [Bare 0; Bare 0]].
Proof. vm_compute. reflexivity. Qed.

(** A solid grey image of 16 by 16 through the whole pipeline. *)
Example compress_gray16 :
  compress boxFilter_ref dct_ref Qlum_ref Qchrom_ref gray16 2 1%float 1%float
  = Some [[Pair 256 0; Bare 2; Bare 2; Num 1%float; Num 1%float];
          [Pair 64 0; Bare 1; Bare 1]; [Pair 64 0; Bare 1; Bare 1]].
Proof. vm_compute. reflexivity. Qed.

(** A plane of 4 by 20 is cropped to the shape (0, 16) and viewed as a
    grid of the shape (0, 2, 8, 8). *)
Example small_plane_shapes :
  nd_shape (crop8 small_plane) = (0, 16)%nat
  ∧ nd_shape <$> view_as_blocks (crop8 small_plane) = Some (0, 2)%nat.
Proof. split; reflexivity. Qed.

(** A solid grey image of 8 by 40 subsampled by 2: the chroma planes of
    4 by 20 give grids of no row and two columns, recorded as [0, 2]. *)
Example compress_gray8x40 :
  compress boxFilter_ref dct_ref Qlum_ref Qchrom_ref gray8x40 2 1%float 1%float
  = Some [[Pair 320 0; Bare 1; Bare 5; Num 1%float; Num 1%float];
          [Bare 0; Bare 2]; [Bare 0; Bare 2]].
Proof. vm_compute. reflexivity. Qed.

Lemma run_length_round_trip_witness :
  length zero_grids = 3%nat
  ∧ Forall grid_ok zero_grids
  ∧ ∃ encoded e,
      encode_and_save_quantised_dct_img zero_grids 1%float 1%float = Some encoded
      ∧ encoded !! 1%nat = Some e
      ∧ pre_metadata 1 e = [Pair 64 0].
Proof.
  split; [reflexivity|]. split; [exact zero_grids_ok|].
  destruct (run_length_round_trip zero_grids 1%float 1%float eq_refl zero_grids_ok)
    as (encoded & Henc & Hch).
  destruct (Hch 1%nat zero_grid eq_refl)
    as (e & ints & He & _ & _ & _ & Hzero & _).
  exists encoded, e. split; [exact Henc|]. split; [exact He|].
  exact (Hzero zero_block eq_refl zero_block_int).
Defined.

Lemma trailing_metadata_witness :
  length flat_grids = 3%nat
  ∧ Forall grid_ok flat_grids
  ∧ ∃ encoded e0 body0 e1 body1,
      encode_and_save_quantised_dct_img flat_grids 1%float 2%float
      = Some encoded
      ∧ encoded !! 0%nat = Some e0
      ∧ e0 = body0 ++ [Bare 1; Bare 5; Num 1%float; Num 2%float]
      ∧ encoded !! 1%nat = Some e1
      ∧ e1 = body1 ++ [Bare 0; Bare 2].
Proof.
  split; [reflexivity|]. split; [exact flat_grids_ok|].
  destruct (trailing_metadata flat_grids 1%float 2%float eq_refl flat_grids_ok)
    as (encoded & Henc & Hch).
  destruct (Hch 0%nat _ eq_refl)
    as (e0 & body0 & ints0 & He0 & _ & _ & _ & Hluma & _).
  destruct (Hch 1%nat _ eq_refl)
    as (e1 & body1 & ints1 & He1 & _ & _ & _ & _ & Hchroma).
  exists encoded, e0, body0, e1, body1. split; [exact Henc|].
  split; [exact He0|]. split; [exact (Hluma eq_refl)|].
  split; [exact He1|]. exact (Hchroma ltac:(discriminate)).
Defined.

Lemma runs_are_maximal_witness :
  length zero_grids = 3%nat
  ∧ Forall grid_ok zero_grids
  ∧ ∃ encoded e,
      encode_and_save_quantised_dct_img zero_grids 1%float 1%float = Some encoded
      ∧ encoded !! 2%nat = Some e
      ∧ ∀ num value, Pair num value ∈ pre_metadata 2 e → (2 ≤ num)%nat.
Proof.
  split; [reflexivity|]. split; [exact zero_grids_ok|].
  destruct (runs_are_maximal zero_grids 1%float 1%float eq_refl zero_grids_ok)
    as (encoded & Henc & Hch).
  destruct (Hch 2%nat zero_grid eq_refl) as (e & He & Hpair & _).
  exists encoded, e. split; [exact Henc|]. split; [exact He|]. exact Hpair.
Defined.

Lemma gray_planes_rect :
  Forall (λ plane : list (list float), ∃ h w, rect h w plane) gray_planes.
Proof.
  repeat (constructor;
          [exists 8%nat, 8%nat; split; [reflexivity|repeat constructor]|]).
  constructor.
Qed.

Lemma dct_and_quantise_blocks_witness :
  length gray_planes = 3%nat
  ∧ Forall (λ plane : list (list float), ∃ h w, rect h w plane) gray_planes
  ∧ ∃ out,
      dct_and_quantise_img dct_ref Qlum_ref Qchrom_ref gray_planes
        1%float 0%float = Some out.
Proof.
  split; [reflexivity|]. split; [exact gray_planes_rect|].
  destruct (dct_and_quantise_blocks dct_ref Qlum_ref Qchrom_ref gray_planes
              1%float 0%float eq_refl gray_planes_rect) as (out & Hout & _).
  exists out. exact Hout.
Defined.

Lemma plane16_rect : rect 16 16 plane16.
Proof. split; [reflexivity|]. repeat constructor. Qed.

Lemma crop_and_partition_witness :
  rect 16 16 plane16
  ∧ ∃ blocks,
      view_as_blocks (crop8 plane16) = Some blocks
      ∧ rect 2 2 blocks
      ∧ length (concat blocks) = 4%nat.
Proof.
  split; [exact plane16_rect|].
  destruct (crop_and_partition plane16 16 16 plane16_rect)
    as (_ & _ & _ & blocks & Hview & _ & _ & _ & H16).
  exists blocks. split; [exact Hview|]. exact (H16 eq_refl eq_refl).
Defined.

Lemma img3_rect : rect 3 3 img3.
Proof. split; [reflexivity|]. repeat constructor. Qed.

Lemma down_sample_dimensions_witness :
  (∀ h w a k, rect h w a → rect h w (boxFilter_ref a k))
  ∧ rect 3 3 img3
  ∧ 1 < 2
  ∧ ∃ Y Cb Cr : list (list float),
      down_sample_cbcr boxFilter_ref img3 2 = [Y; Cb; Cr]
      ∧ rect 3 3 Y ∧ rect 2 2 Cb ∧ rect 2 2 Cr.
Proof.
  split; [exact boxFilter_ref_rect|]. split; [exact img3_rect|].
  split; [lia|].
  destruct (down_sample_dimensions (F := float) boxFilter_ref img3 3 3 2
              boxFilter_ref_rect img3_rect ltac:(lia))
    as (Y & Cb & Cr & Heq & HY & HCb & HCr & _).
  exists Y, Cb, Cr. auto.
Defined.

(** C4, as stated, fails: a plane of 3 by 3 subsampled by 2 has chroma
    planes of 2 by 2, the samples at the rows and columns 0 and 2, where
    the integer quotient of 3 by 2 is 1. *)
Lemma chroma_dimensions_not_floor :
  shape <$> down_sample_cbcr (F := float) boxFilter_ref img3 2
  = [(3, 3); (2, 2); (2, 2)]%nat
  ∧ (2, 2)%nat ≠ (3 / 2, 3 / 2)%nat.
Proof. split; [vm_compute; reflexivity|]. intros [=]. Qed.

Lemma rgb_to_ycbcr_formulas_witness :
  get2 img3 1 2 = Some (Pixel 200 100 50)
  ∧ get2 (rgb_to_ycbcr img3) 1 2 = Some (Pixel 124 86 182).
Proof.
  split; [reflexivity|].
  destruct (rgb_to_ycbcr_formulas img3 1 2 (Pixel 200 100 50) eq_refl)
    as (_ & _ & Hget).
  rewrite Hget. vm_compute. reflexivity.
Defined.

Lemma ycbcr_stored_in_range_witness :
  get2 img3 0 0 = Some (Pixel 200 100 50)
  ∧ ∃ y cb cr,
      get2 (rgb_to_ycbcr img3) 0 0 = Some (Pixel y cb cr)
      ∧ 0 ≤ y ≤ 255 ∧ 0 ≤ cb ≤ 255 ∧ 0 ≤ cr ≤ 255.
Proof.
  split; [reflexivity|].
  destruct (ycbcr_stored_in_range img3 0 0 (Pixel 200 100 50) eq_refl
              ltac:(simpl; lia) ltac:(simpl; lia) ltac:(simpl; lia))
    as (y & cb & cr & Hget & _ & Hy & _ & Hcb & _ & Hcr).
  exists y, cb, cr. auto.
Defined.

Lemma compress_no_validation_witness :
  0 ≤ 0
  ∧ compress boxFilter_ref dct_ref Qlum_ref Qchrom_ref gray8 0
      (-1)%float (-1)%float
    = compress boxFilter_ref dct_ref Qlum_ref Qchrom_ref gray8 1
        (-1)%float (-1)%float.
Proof.
  split; [lia|].
  exact (proj1 (compress_no_validation boxFilter_ref dct_ref Qlum_ref Qchrom_ref
                  gray8 0 (-1)%float (-1)%float) ltac:(lia)).
Defined.

(** C7, as stated, fails: with the sample factor 0 and the two rates -1 the
    pipeline raises no error and returns an encoding, in which the luma
    plane is not quantised and the rates -1 are recorded. *)
Lemma compress_accepts_invalid_parameters :
  compress boxFilter_ref dct_ref Qlum_ref Qchrom_ref gray8 0
    (-1)%float (-1)%float
  = Some [[Bare (-7); Pair 63 0; Bare 1; Bare 1; Num (-1)%float; Num (-1)%float];
          [Pair 64 0; Bare 1; Bare 1]; [Pair 64 0; Bare 1; Bare 1]].
Proof. vm_compute. reflexivity. Qed.


(** ** The further properties at concrete inputs *)

Lemma grey_stays_neutral_witness :
  get2 gray8 0 0 = Some (Pixel 128 128 128)
  ∧ 0 ≤ 128 ≤ 255
  ∧ ∃ y, get2 (rgb_to_ycbcr gray8) 0 0 = Some (Pixel y 128 128)
         ∧ 128 - 1 ≤ y ≤ 128.
Proof.
  split; [reflexivity|]. split; [lia|].
  exact (grey_stays_neutral gray8 0 0 128 eq_refl ltac:(lia)).
Defined.

Lemma down_sample_quotient_witness :
  (∀ h w a k, rect h w a → rect h w (boxFilter_ref a k))
  ∧ rect 3 3 img3
  ∧ 1 < 2
  ∧ ∃ Y Cb Cr : list (list float),
      down_sample_cbcr boxFilter_ref img3 2 = [Y; Cb; Cr]
      ∧ rect 2 2 Cb ∧ rect 2 2 Cr.
Proof.
  split; [exact boxFilter_ref_rect|]. split; [exact img3_rect|].
  split; [lia|].
  destruct (down_sample_quotient (F := float) boxFilter_ref img3 3 3 2
              boxFilter_ref_rect img3_rect ltac:(lia))
    as (Y & Cb & Cr & Heq & HCb & HCr & _).
  exists Y, Cb, Cr. auto.
Defined.

Lemma sample_in_one_block_witness :
  rect 16 16 plane16
  ∧ (9 < 16 - 16 mod 8)%nat
  ∧ (12 < 16 - 16 mod 8)%nat
  ∧ ∃ blocks block,
      view_as_blocks (crop8 plane16) = Some blocks
      ∧ get2 blocks 1 1 = Some block
      ∧ get2 block 1 4 = get2 plane16 9 12.
Proof.
  split; [exact plane16_rect|]. split; [simpl; lia|]. split; [simpl; lia|].
  destruct (sample_in_one_block plane16 16 16 9 12 plane16_rect
              ltac:(simpl; lia) ltac:(simpl; lia))
    as (blocks & block & Hview & Hblock & Hget & _).
  exists blocks, block. auto.
Defined.

Lemma crop8_idempotent_witness :
  rect 16 16 plane16
  ∧ crop8 (crop8 plane16) = crop8 plane16
  ∧ nd_rows (crop8 plane16) = plane16
  ∧ nd_shape (crop8 plane16) = (16, 16)%nat.
Proof.
  split; [exact plane16_rect|].
  destruct (crop8_idempotent plane16 16 16 plane16_rect) as (_ & Hidem & Hid & _).
  split; [exact (Hidem ltac:(lia))|]. exact (Hid eq_refl eq_refl).
Defined.

Lemma small_plane_rect : rect 4 20 small_plane.
Proof. split; [reflexivity|]. repeat constructor. Qed.

Lemma small_plane_no_coefficients_witness :
  rect 4 20 small_plane
  ∧ (0 < 4)%nat
  ∧ ((4 < 8)%nat ∨ (20 < 8)%nat)
  ∧ ∃ grid : ndarray (list (list float)),
      dct_and_quantise_channel dct_ref Qlum_ref Qchrom_ref 1 small_plane
        1%float 1%float = Some grid
      ∧ nd_shape grid = (0, 2)%nat
      ∧ concat grid = []
      ∧ encode_channel grid = Some [Bare 0; Bare 2].
Proof.
  assert (Hsmall : (4 < 8)%nat ∨ (20 < 8)%nat) by (left; lia).
  split; [exact small_plane_rect|]. split; [lia|]. split; [exact Hsmall|].
  exact (small_plane_no_coefficients dct_ref Qlum_ref Qchrom_ref 1 small_plane
           4 20 1%float 1%float small_plane_rect ltac:(lia) Hsmall).
Defined.

Lemma encoding_not_longer_witness :
  length zero_grids = 3%nat
  ∧ Forall grid_ok zero_grids
  ∧ ∃ encoded e,
      encode_and_save_quantised_dct_img zero_grids 1%float 1%float = Some encoded
      ∧ encoded !! 0%nat = Some e
      ∧ (length e ≤ 64 + 4)%nat.
Proof.
  split; [reflexivity|]. split; [exact zero_grids_ok|].
  destruct (encoding_not_longer zero_grids 1%float 1%float eq_refl zero_grids_ok)
    as (encoded & Henc & Hch).
  destruct (Hch 0%nat zero_grid eq_refl) as (e & ints & He & Hflat & _ & Hle).
  exists encoded, e. split; [exact Henc|]. split; [exact He|].
  vm_compute in Hflat. injection Hflat as <-. exact Hle.
Defined.

Lemma encode_channel_injective_witness :
  grid_ok zero_grid
  ∧ encode_channel zero_grid = encode_channel zero_grid
  ∧ nd_shape zero_grid = nd_shape zero_grid.
Proof.
  split; [exact zero_grid_ok|]. split; [reflexivity|].
  exact (proj2 (encode_channel_injective zero_grid zero_grid
                  zero_grid_ok zero_grid_ok eq_refl)).
Defined.

Lemma rates_do_not_interfere_witness :
  length gray_planes = 3%nat
  ∧ Forall (λ plane : list (list float), ∃ h w, rect h w plane) gray_planes
  ∧ ∃ q q1,
      dct_and_quantise_img dct_ref Qlum_ref Qchrom_ref gray_planes
        1%float 1%float = Some q
      ∧ dct_and_quantise_img dct_ref Qlum_ref Qchrom_ref gray_planes
          1%float 5%float = Some q1
      ∧ q !! 0%nat = q1 !! 0%nat.
Proof.
  split; [reflexivity|]. split; [exact gray_planes_rect|].
  destruct (rates_do_not_interfere dct_ref Qlum_ref Qchrom_ref gray_planes
              1%float 1%float 3%float 5%float eq_refl gray_planes_rect)
    as (q & q1 & q2 & Hq & Hq1 & _ & H0 & _).
  exists q, q1. auto.
Defined.

Lemma fewer_than_three_planes_witness :
  (length (@nil (list (list float))) < 3)%nat
  ∧ dct_and_quantise_img dct_ref Qlum_ref Qchrom_ref [] 1%float 1%float = None.
Proof.
  split; [simpl; lia|].
  exact (proj1 (fewer_than_three_planes dct_ref Qlum_ref Qchrom_ref [] []
                  1%float 1%float) ltac:(simpl; lia)).
Defined.

Lemma gray16_grids_ok (q : list (ndarray (list (list float)))) :
  dct_and_quantise_img dct_ref Qlum_ref Qchrom_ref
    (down_sample_cbcr boxFilter_ref (rgb_to_ycbcr gray16) 2) 1%float 1%float
  = Some q →
  Forall grid_ok q.
Proof.
  intros Hq. vm_compute in Hq. injection Hq as <-.
  repeat first [reflexivity | econstructor].
Qed.

Lemma compress_coefficient_counts_witness :
  (∀ h w a k, rect h w a → rect h w (boxFilter_ref a k))
  ∧ rect 16 16 gray16
  ∧ ∃ e0 e1 e2,
      compress boxFilter_ref dct_ref Qlum_ref Qchrom_ref gray16 2
        1%float 1%float = Some [e0; e1; e2]
      ∧ length (expand (pre_metadata 0 e0)) = 256%nat
      ∧ length (expand (pre_metadata 1 e1)) = 64%nat
      ∧ length (expand (pre_metadata 2 e2)) = 64%nat.
Proof.
  split; [exact boxFilter_ref_rect|].
  assert (Hrect : rect 16 16 gray16) by (split; [reflexivity|repeat constructor]).
  split; [exact Hrect|].
  exact (compress_coefficient_counts boxFilter_ref dct_ref Qlum_ref Qchrom_ref
           gray16 16 16 2 1%float 1%float boxFilter_ref_rect Hrect
           gray16_grids_ok).
Defined.

Lemma luma_ignores_sample_factor_witness :
  ∃ encoded encoded',
    compress boxFilter_ref dct_ref Qlum_ref Qchrom_ref gray8 1
      1%float 1%float = Some encoded
    ∧ compress boxFilter_ref dct_ref Qlum_ref Qchrom_ref gray8 2
        1%float 1%float = Some encoded'
    ∧ encoded ≠ encoded'
    ∧ encoded !! 0%nat = encoded' !! 0%nat.
Proof.
  eexists _, _.
  assert (H1 : compress boxFilter_ref dct_ref Qlum_ref Qchrom_ref gray8 1
                 1%float 1%float
               = Some [[Pair 64 0; Bare 1; Bare 1; Num 1%float; Num 1%float];
                       [Pair 64 0; Bare 1; Bare 1]; [Pair 64 0; Bare 1; Bare 1]])
    by (vm_compute; reflexivity).
  assert (H2 : compress boxFilter_ref dct_ref Qlum_ref Qchrom_ref gray8 2
                 1%float 1%float
               = Some [[Pair 64 0; Bare 1; Bare 1; Num 1%float; Num 1%float];
                       [Bare 0; Bare 0]; [Bare 0; Bare 0]])
    by (vm_compute; reflexivity).
  split; [exact H1|]. split; [exact H2|]. split; [discriminate|].
  exact (luma_ignores_sample_factor boxFilter_ref dct_ref Qlum_ref Qchrom_ref
           gray8 1 2 1%float 1%float _ _ H1 H2).
Defined.

Lemma encode_channel_rejects_witness :
  well_formed (NdArray 1 [[inf_block]])
  ∧ Forall (Forall (rect 8 8)) [[inf_block]]
  ∧ get2 [[inf_block]] 0 0 = Some inf_block
  ∧ get2 inf_block 3 5 = Some infinity
  ∧ py_int infinity = None
  ∧ encode_channel (NdArray 1 [[inf_block]]) = None.
Proof.
  assert (H1 : well_formed (NdArray 1 [[inf_block]]))
    by (constructor; [reflexivity|constructor]).
  assert (H2 : Forall (Forall (rect 8 8)) [[inf_block]])
    by (repeat first [reflexivity | econstructor]).
  split; [exact H1|]. split; [exact H2|].
  split; [reflexivity|]. split; [reflexivity|]. split; [reflexivity|].
  exact (encode_channel_rejects (NdArray 1 [[inf_block]]) 0 0 3 5 inf_block
           infinity H1 H2 eq_refl eq_refl eq_refl).
Defined.
